(** * godb: the node codec, lookup and copy-on-write builder of [types/btree.go]

    A shallow embedding of the B+tree node layer.  A [Node] is the Go value
    [type Node []byte]; it is modelled by the list of the bytes of its page
    buffer (length and capacity coincide, as for a buffer obtained from
    [make([]byte, n)]).  Every [uint16] expression of the source is written
    with its wrap-around, every slice expression with its bounds check, and a
    run-time panic is the result [None]. *)

From Stdlib Require Import ZArith Lia List.
From Stdlib Require Import Strings.Byte Strings.String.
From stdpp Require Import base option list gmap.

Local Open Scope Z_scope.

(** ** Machine integers and bytes *)

Definition u16 (z : Z) : Z := z mod 65536.
Definition add16 (a b : Z) : Z := u16 (a + b).
Definition sub16 (a b : Z) : Z := u16 (a - b).
Definition mul16 (a b : Z) : Z := u16 (a * b).

Definition Z_of_byte (b : byte) : Z := Z.of_N (Byte.to_N b).

(** The Go conversion [byte(v)]: the low eight bits. *)
Definition byte_of_Z (z : Z) : byte :=
  default "000"%byte (Byte.of_N (Z.to_N (z mod 256))).

#[global] Instance byte_eq_decision : EqDecision byte := Byte.byte_eq_dec.

(** ** Go slices over a byte buffer *)

Abbreviation Node := (list byte) (only parsing).

Definition len (b : list byte) : Z := Z.of_nat (length b).

(** [b[lo:hi]]; panics unless [lo <= hi <= cap(b)]. *)
Definition slice (b : list byte) (lo hi : Z) : option (list byte) :=
  if (lo <=? hi) && (hi <=? len b)
  then Some (take (Z.to_nat (hi - lo)) (drop (Z.to_nat lo) b))
  else None.

(** [b[lo:]] *)
Definition slice_from (b : list byte) (lo : Z) : option (list byte) :=
  slice b lo (len b).

(** A write made through the sub-slice [b[lo:hi]] lands in [b]: [f] is the
    effect on the sub-slice, the result is the whole buffer afterwards. *)
Definition with_slice (b : list byte) (lo hi : Z)
    (f : list byte → option (list byte)) : option (list byte) :=
  s ← slice b lo hi;
  s' ← f s;
  Some (take (Z.to_nat lo) b ++ s' ++ drop (Z.to_nat hi) b).

Definition with_slice_from (b : list byte) (lo : Z)
    (f : list byte → option (list byte)) : option (list byte) :=
  with_slice b lo (len b) f.

(** The builtin [copy(dst, src)]: the first [min(len dst, len src)] bytes of
    [dst] are replaced, the length of [dst] is kept. *)
Definition copy (dst src : list byte) : list byte :=
  take (length dst) src ++ drop (length src) dst.

(** ** encoding/binary, little endian *)

Fixpoint le_decode (bs : list byte) : Z :=
  match bs with
  | [] => 0
  | b :: bs' => Z_of_byte b + 256 * le_decode bs'
  end.

Fixpoint le_encode (n : nat) (v : Z) : list byte :=
  match n with
  | O => []
  | S n' => byte_of_Z v :: le_encode n' (Z.shiftr v 8)
  end.

Definition get_le (n : nat) (s : list byte) : option Z :=
  if Z.of_nat n <=? len s then Some (le_decode (take n s)) else None.

Definition put_le (n : nat) (s : list byte) (v : Z) : option (list byte) :=
  if Z.of_nat n <=? len s then Some (le_encode n v ++ drop n s) else None.

Definition Uint16 : list byte → option Z := get_le 2.
Definition Uint64 : list byte → option Z := get_le 8.
Definition PutUint16 : list byte → Z → option (list byte) := put_le 2.
Definition PutUint64 : list byte → Z → option (list byte) := put_le 8.

(** ** bytes.Compare and bytes.Equal *)

Fixpoint bytes_Compare (a b : list byte) : Z :=
  match a, b with
  | [], [] => 0
  | [], _ :: _ => -1
  | _ :: _, [] => 1
  | x :: a', y :: b' =>
      if Z_of_byte x <? Z_of_byte y then -1
      else if Z_of_byte y <? Z_of_byte x then 1
      else bytes_Compare a' b'
  end.

Definition bytes_Equal (a b : list byte) : bool :=
  bool_decide (a = b).

(** ** Constants *)

Definition HEADER_SIZE : Z := 4.


Definition BNODE_INTERNAL_TYPE : Z := 0.
Definition BNODE_LEAF_TYPE : Z := 1.

(** ** The codec of [types/btree.go] *)

Definition btype (node : Node) : option Z :=
  s ← slice node 0 2; Uint16 s.

Definition nkeys (node : Node) : option Z :=
  s ← slice node 2 4; Uint16 s.

Definition setHeader (node : Node) (btype nkeys : Z) : option Node :=
  node1 ← with_slice node 0 2 (λ s, PutUint16 s btype);
  with_slice node1 2 4 (λ s, PutUint16 s nkeys).

Definition getPtr (node : Node) (idx : Z) : option Z :=
  let pos := add16 HEADER_SIZE (mul16 8 idx) in
  s ← slice_from node pos; Uint64 s.

Definition setPtr (node : Node) (idx : Z) (val : Z) : option Node :=
  let pos := add16 HEADER_SIZE (mul16 8 idx) in
  with_slice_from node pos (λ s, PutUint64 s val).

Definition offsetIdx (node : Node) (pos : Z) : option Z :=
  n ← nkeys node;
  Some (add16 (add16 HEADER_SIZE (mul16 8 n)) (mul16 2 (sub16 pos 1))).

Definition getOffset (node : Node) (idx : Z) : option Z :=
  if idx =? 0 then Some 0
  else p ← offsetIdx node idx; s ← slice_from node p; Uint16 s.

Definition setOffset (node : Node) (idx offset : Z) : option Node :=
  p ← offsetIdx node idx;
  with_slice_from node p (λ s, PutUint16 s offset).

Definition kvPos (node : Node) (idx : Z) : option Z :=
  n ← nkeys node;
  o ← getOffset node idx;
  Some (add16 (add16 (add16 HEADER_SIZE (mul16 8 n)) (mul16 2 n)) o).

Definition getKey (node : Node) (idx : Z) : option (list byte) :=
  pos ← kvPos node idx;
  klen ← slice_from node pos ≫= Uint16;
  s ← slice_from node (add16 pos 4);
  slice s 0 klen.

Definition getVal (node : Node) (idx : Z) : option (list byte) :=
  pos ← kvPos node idx;
  klen ← slice_from node pos ≫= Uint16;
  vlen ← slice_from node (add16 pos klen) ≫= Uint16;
  s ← slice_from node (add16 pos 4);
  s' ← slice_from s klen;
  slice s' 0 vlen.

Definition nbytes (node : Node) : option Z :=
  n ← nkeys node; kvPos node n.

(** ** Lookup *)

(** The loop [for i := 1; i < nkeys; i++] of [nodeLookupLE], entered with
    [steps = nkeys - i] iterations left. *)
Fixpoint nodeLookupLE_loop (node : Node) (key : list byte)
    (steps : nat) (i found : Z) : option Z :=
  match steps with
  | O => Some found
  | S steps' =>
      k ← getKey node i;
      let cmp := bytes_Compare k key in
      let found' := if cmp <=? 0 then i else found in
      if cmp >=? 0 then Some found'
      else nodeLookupLE_loop node key steps' (add16 i 1) found'
  end.

Definition nodeLookupLE (node : Node) (key : list byte) : option Z :=
  n ← nkeys node;
  nodeLookupLE_loop node key (Z.to_nat (n - 1)) 1 0.

Fixpoint nodeLookupEQ_loop (node : Node) (key : list byte)
    (steps : nat) (i : Z) : option Z :=
  match steps with
  | O => Some 0
  | S steps' =>
      k ← getKey node i;
      if bytes_Equal k key then Some i
      else nodeLookupEQ_loop node key steps' (add16 i 1)
  end.

Definition nodeLookupEQ (node : Node) (key : list byte) : option Z :=
  n ← nkeys node;
  nodeLookupEQ_loop node key (Z.to_nat (n - 1)) 1.

(** ** The builder *)

Definition nodeAppendKV (new : Node) (idx ptr : Z) (key val : list byte)
    : option Node :=
  new1 ← setPtr new idx ptr;
  pos ← kvPos new1 idx;
  new2 ← with_slice_from new1 pos (λ s, PutUint16 s (u16 (len key)));
  new3 ← with_slice_from new2 (add16 pos 2) (λ s, PutUint16 s (u16 (len val)));
  new4 ← with_slice_from new3 (add16 pos 4) (λ s, Some (copy s key));
  new5 ← with_slice_from new4 (add16 (add16 pos 4) (u16 (len key)))
            (λ s, Some (copy s val));
  o ← getOffset new5 idx;
  setOffset new5 (add16 idx 1) (add16 (add16 o 4) (u16 (len key + len val))).

(** Two nodes are involved in [nodeAppendRange] and [leafInsert], and the
    caller may pass the same buffer twice.  The buffers therefore live in a
    heap, a node argument is the location of its buffer, and every statement
    reads the buffers as they are at that point. *)

Abbreviation loc := nat (only parsing).
Abbreviation heap := (gmap nat (list byte)) (only parsing).

Definition read {A} (h : heap) (r : loc) (f : Node → option A) : option A :=
  h !! r ≫= f.

Definition update (h : heap) (r : loc) (f : Node → option Node) : option heap :=
  b ← h !! r; b' ← f b; Some (<[r := b']> h).

Definition nodeAppendRange (h : heap) (new old : loc) (dstNew srcOld n : Z)
    : option heap :=
  dstNewPos ← read h new (λ b, kvPos b srcOld);
  srcOldPos ← read h old (λ b, kvPos b dstNew);
  src ← read h old (λ b, slice b srcOldPos (add16 srcOldPos n));
  update h new (λ b,
    with_slice b dstNewPos (add16 dstNewPos n) (λ d, Some (copy d src))).

Definition leafInsert (h : heap) (new old : loc) (idx : Z)
    (key val : list byte) : option heap :=
  n ← read h old nkeys;
  h1 ← update h new (λ b, setHeader b BNODE_LEAF_TYPE (add16 n 1));
  h2 ← nodeAppendRange h1 new old 0 0 idx;
  h3 ← update h2 new (λ b, nodeAppendKV b idx 0 key val);
  n' ← read h3 old nkeys;
  nodeAppendRange h3 new old (add16 idx 1) idx (sub16 n' idx).

(** ** The second copy of the codec (the unnamed source file) *)

Module Part000.

Definition offsetPos (node : Node) (idx : Z) : option Z :=
  n ← nkeys node;
  Some (add16 (add16 HEADER_SIZE (mul16 8 n)) (mul16 2 (sub16 idx 1))).

Definition setOffset (node : Node) (idx offset : Z) : option Node :=
  if idx =? 0 then Some node
  else
    p ← offsetPos node idx;
    with_slice_from node p (λ s, PutUint16 s offset).

End Part000.

(** ** Concrete nodes *)

Definition bs (s : string) : list byte := list_byte_of_string s.

Definition page : Node := replicate 4096 "000"%byte.

(** The leaf with keys b, d, f and values 2, 4, 6, built entry by entry. *)
Definition leaf_bdf : option Node :=
  n0 ← setHeader page BNODE_LEAF_TYPE 3;
  n1 ← nodeAppendKV n0 0 0 (bs "b") (bs "2");
  n2 ← nodeAppendKV n1 1 0 (bs "d") (bs "4");
  nodeAppendKV n2 2 0 (bs "f") (bs "6").

Definition node_bdf : Node := default page leaf_bdf.

(** A heap with a fresh page at location 0 and the leaf b, d, f at 1. *)
Definition heap_bdf : heap := {[ 0%nat := page; 1%nat := node_bdf ]}.

(** A leaf with the eight one-byte keys a .. h, and the heap holding a fresh
    page at location 0 and that leaf at 1. *)
Definition leaf8 : option Node :=
  foldl (λ acc i, n ← acc;
                  nodeAppendKV n (Z.of_nat i) 0
                    [byte_of_Z (97 + Z.of_nat i)] [byte_of_Z (49 + Z.of_nat i)])
        (setHeader page BNODE_LEAF_TYPE 8) (seq 0 8).

Definition node8 : Node := default page leaf8.


Definition key1000 : list byte := replicate 1000 "k"%byte.
Definition val3000 : list byte := replicate 3000 "v"%byte.

(** A one-entry leaf under construction: header written, entry 0 appended. *)
Definition leaf_a1 : option Node :=
  p ← setHeader page BNODE_LEAF_TYPE 1;
  nodeAppendKV p 0 7 (bs "a") (bs "1").

Definition node_a1 : Node := default page leaf_a1.

(** The leaf b, d, f as destination at 0 and the leaf a .. h as source at 1. *)
Definition heap_range : heap := {[ 0%nat := node_bdf; 1%nat := node8 ]}.

(** The keys of the first four entries. *)
Definition keys4 (node : Node) : list (option (list byte)) :=
  getKey node <$> [0; 1; 2; 3].

(** The node at location 0 after an operation on the heap. *)
Definition produced (h : option heap) : option Node :=
  h ≫= (λ h', h' !! 0%nat).

(** A fresh page with the header of a leaf of nine keys, and a 32-byte buffer
    with the header of a leaf of one key. *)
Definition page9 : Node := default page (setHeader page BNODE_LEAF_TYPE 9).

Definition small_leaf1 : Node :=
  default [] (setHeader (replicate 32 "000"%byte) BNODE_LEAF_TYPE 1).

(** ** Filling a node *)

(** An entry as it is handed to [nodeAppendKV]: pointer, key, value. *)
Abbreviation kv := (Z * list byte * list byte)%type (only parsing).

Definition kv_size (e : kv) : Z := 4 + len e.1.2 + len e.2.

Fixpoint kv_total (es : list kv) : Z :=
  match es with
  | [] => 0
  | e :: es' => kv_size e + kv_total es'
  end.

(** [nodeAppendKV] for the entries [es] at the indices idx, idx+1, ... in
    increasing order, the order in which the running offsets have to be
    written. *)
Fixpoint appendKVs (node : Node) (idx : Z) (es : list kv) : option Node :=
  match es with
  | [] => Some node
  | (ptr, key, val) :: es' =>
      node' ← nodeAppendKV node idx ptr key val;
      appendKVs node' (idx + 1) es'
  end.

(** A node built in a buffer: the header, then the entries in order. *)
Definition buildNode (buf : Node) (t : Z) (es : list kv) : option Node :=
  node ← setHeader buf t (Z.of_nat (length es));
  appendKVs node 0 es.

(** Three entries with two-byte keys. *)
Definition kvs3 : list kv :=
  [(11, bs "ab", bs "one"); (22, bs "cd", bs "two"); (33, bs "ef", bs "three")].

(** A leaf of three keys whose offset 1 points far outside the page. *)
Definition node_bad : Node :=
  default page (b ← setHeader page BNODE_LEAF_TYPE 3; setOffset b 1 60000).

(** ** Vocabulary of the statements *)

(** Every key the two scans can visit is readable (no slice is out of range). *)
Definition keys_readable (node : Node) (n : Z) : Prop :=
  ∀ i, 1 ≤ i < n → is_Some (getKey node i).

(** The keys at indices 1 .. n-1 are strictly ascending for [bytes.Compare]. *)
Definition keys_ascending (node : Node) (n : Z) : Prop :=
  ∀ i j ki kj, 1 ≤ i → i < j → j < n →
    getKey node i = Some ki → getKey node j = Some kj →
    bytes_Compare ki kj < 0.

(** What [nodeLookupLE] promises for the result [r]: the greatest index of
    1 .. n-1 whose key is at most the search key, and 0 when there is none. *)
Definition lookupLE_post (node : Node) (key : list byte) (n r : Z) : Prop :=
  (r = 0 ∧
   ∀ i ki, 1 ≤ i < n → getKey node i = Some ki → bytes_Compare ki key > 0)
  ∨
  (1 ≤ r < n ∧
   (∃ kr, getKey node r = Some kr ∧ bytes_Compare kr key ≤ 0) ∧
   ∀ i ki, 1 ≤ i < n → getKey node i = Some ki →
     bytes_Compare ki key ≤ 0 → i ≤ r).

(** What [nodeLookupEQ] promises for the result [r]. *)
Definition lookupEQ_post (node : Node) (key : list byte) (n r : Z) : Prop :=
  (r = 0 ↔ ∀ i, 1 ≤ i < n → getKey node i ≠ Some key) ∧
  (r ≠ 0 →
     1 ≤ r < n ∧ getKey node r = Some key ∧
     (∀ j, 1 ≤ j < r → getKey node j ≠ Some key) ∧
     (keys_ascending node n →
      ∀ j, 1 ≤ j < n → getKey node j = Some key → j = r)).

(** The bytes of [b] from [pos], [n] of them, and [b] with [bs] written at
    [pos]. *)
Definition read_at (b : list byte) (pos n : Z) : list byte :=
  take (Z.to_nat n) (drop (Z.to_nat pos) b).

Definition write_at (b : list byte) (pos : Z) (bs : list byte) : list byte :=
  take (Z.to_nat pos) b ++ bs ++ drop (Z.to_nat pos + length bs) b.

(** The position of offset slot [idx] when nothing wraps around. *)
Definition slot (n idx : Z) : Z := 4 + 8 * n + 2 * (idx - 1).

(** Entry [idx] fits the buffer and nothing wraps around: the node has [n]
    keys, [idx] is one of them, the running offset of [idx] is [o], and the
    entry ends inside a buffer shorter than 2^16. *)
Definition appendKV_in_range (new : Node) (idx ptr : Z) (key val : list byte)
    (n o : Z) : Prop :=
  nkeys new = Some n ∧ 0 ≤ idx < n ∧ getOffset new idx = Some o ∧
  4 + 10 * n + o + 4 + len key + len val ≤ len new ∧ len new < 65536 ∧
  0 ≤ ptr < 2 ^ 64.

(** The bytes of a KV pair as the file comment lays them out:
    klen (2B), vlen (2B), key, val. *)
Definition entry_bytes (key val : list byte) : list byte :=
  le_encode 2 (len key) ++ le_encode 2 (len val) ++ key ++ val.

(** The part of [val] that the buffer has room for behind the key of an entry
    that starts at [4 + 10*n + o]. *)
Definition stored_val (new : Node) (n o : Z) (key val : list byte)
    : list byte :=
  take (Z.to_nat (len new - (4 + 10 * n + o + 4 + len key))) val.

(** As [appendKV_in_range], but only the header and the key of the entry have
    to fit the buffer. *)
Definition appendKV_fits_key (new : Node) (idx : Z) (key val : list byte)
    (n o : Z) : Prop :=
  nkeys new = Some n ∧ 0 ≤ idx < n ∧ getOffset new idx = Some o ∧
  4 + 10 * n + o + 4 + len key ≤ len new ∧ len new < 65536 ∧
  o + 4 + len key + len val < 65536.

(** The buffer after [nodeAppendKV], as three writes: the pointer, the entry
    and the running offset of the next entry. *)
Definition appendKV_result (new : Node) (idx ptr : Z) (key val : list byte)
    (n o : Z) : Node :=
  write_at
    (write_at
       (write_at new (4 + 8 * idx) (le_encode 8 ptr))
       (4 + 10 * n + o)
       (le_encode 2 (len key) ++ le_encode 2 (len val) ++ key
          ++ stored_val new n o key val))
    (slot n (idx + 1))
    (le_encode 2 (o + 4 + len key + len val)).

(** The entries [pre] are in the first places of a node of [n] keys. *)
Definition filled (node : Node) (n : Z) (pre : list kv) : Prop :=
  nkeys node = Some n ∧
  getOffset node (Z.of_nat (length pre)) = Some (kv_total pre) ∧
  ∀ (i : nat) p k v, pre !! i = Some (p, k, v) →
    read_at node (4 + 8 * Z.of_nat i) 8 = le_encode 8 p ∧
    read_at node (4 + 10 * n + kv_total (take i pre)) (4 + len k + len v)
      = entry_bytes k v ∧
    getOffset node (Z.of_nat i) = Some (kv_total (take i pre)).

(** The keys of the entries are strictly ascending. *)
Definition kvs_ascending (es : list kv) : Prop :=
  ∀ (i j : nat) pi ki vi pj kj vj,
    (i < j)%nat → es !! i = Some (pi, ki, vi) → es !! j = Some (pj, kj, vj) →
    bytes_Compare ki kj < 0.

(** * Properties *)

(** ** Bytes and 16-bit arithmetic *)

Lemma u16_range z : 0 ≤ u16 z < 65536.
Proof. unfold u16. apply Z.mod_pos_bound. lia. Qed.

Lemma u16_small z : 0 ≤ z < 65536 → u16 z = z.
Proof. intros. unfold u16. apply Z.mod_small. lia. Qed.

Lemma Z_of_byte_range b : 0 ≤ Z_of_byte b < 256.
Proof.
  unfold Z_of_byte. pose proof (Byte.to_N_bounded b). lia.
Qed.

Lemma Z_of_byte_inj a b : Z_of_byte a = Z_of_byte b → a = b.
Proof.
  unfold Z_of_byte. intros H. apply N2Z.inj in H.
  pose proof (Byte.of_to_N a) as Ha. pose proof (Byte.of_to_N b) as Hb.
  rewrite H in Ha. congruence.
Qed.

Lemma Z_of_byte_of_Z z : Z_of_byte (byte_of_Z z) = z mod 256.
Proof.
  unfold byte_of_Z, Z_of_byte.
  pose proof (Z.mod_pos_bound z 256 ltac:(lia)) as Hr.
  destruct (Byte.of_N (Z.to_N (z mod 256))) as [b|] eqn:E.
  - simpl. apply Byte.to_of_N in E. rewrite E. lia.
  - apply Byte.of_N_None_iff in E. lia.
Qed.

(** ** The order of [bytes.Compare] *)

Lemma bytes_Compare_values a b :
  bytes_Compare a b = -1 ∨ bytes_Compare a b = 0 ∨ bytes_Compare a b = 1.
Proof.
  revert b. induction a as [|x a IH]; intros [|y b]; simpl; auto.
  destruct (Z_of_byte x <? Z_of_byte y); auto.
  destruct (Z_of_byte y <? Z_of_byte x); auto.
Qed.

Lemma bytes_Compare_eq a b : bytes_Compare a b = 0 ↔ a = b.
Proof.
  revert b. induction a as [|x a IH]; intros [|y b]; simpl;
    try (split; [lia | discriminate]); [tauto|].
  destruct (Z.ltb_spec (Z_of_byte x) (Z_of_byte y)).
  { split; [lia | intros [= -> ->]; lia]. }
  destruct (Z.ltb_spec (Z_of_byte y) (Z_of_byte x)).
  { split; [lia | intros [= -> ->]; lia]. }
  assert (x = y) as -> by (apply Z_of_byte_inj; lia).
  rewrite IH. split; [intros -> | intros [= ->]]; reflexivity.
Qed.

Lemma bytes_Compare_antisym a b : bytes_Compare b a = - bytes_Compare a b.
Proof.
  revert b. induction a as [|x a IH]; intros [|y b]; simpl; try reflexivity.
  destruct (Z.ltb_spec (Z_of_byte x) (Z_of_byte y));
    destruct (Z.ltb_spec (Z_of_byte y) (Z_of_byte x)); try lia.
  apply IH.
Qed.

Lemma bytes_Compare_trans a b c :
  bytes_Compare a b < 0 → bytes_Compare b c < 0 → bytes_Compare a c < 0.
Proof.
  revert b c. induction a as [|x a IH]; intros [|y b] [|z c]; simpl; try lia.
  destruct (Z.ltb_spec (Z_of_byte x) (Z_of_byte y));
    destruct (Z.ltb_spec (Z_of_byte y) (Z_of_byte x));
    destruct (Z.ltb_spec (Z_of_byte y) (Z_of_byte z));
    destruct (Z.ltb_spec (Z_of_byte z) (Z_of_byte y));
    destruct (Z.ltb_spec (Z_of_byte x) (Z_of_byte z));
    destruct (Z.ltb_spec (Z_of_byte z) (Z_of_byte x));
    try lia.
  apply IH.
Qed.

Lemma bytes_Equal_Compare a b :
  bytes_Equal a b = true ↔ bytes_Compare a b = 0.
Proof.
  unfold bytes_Equal. rewrite bool_decide_eq_true. symmetry.
  apply bytes_Compare_eq.
Qed.

(** ** Reading the header *)

Lemma le_decode_range bs : 0 ≤ le_decode bs < 256 ^ len bs.
Proof.
  unfold len. induction bs as [|b bs IH].
  - simpl. lia.
  - cbn [le_decode length]. rewrite Nat2Z.inj_succ, Z.pow_succ_r by lia.
    pose proof (Z_of_byte_range b). lia.
Qed.

Lemma get_le_range n s v :
  get_le n s = Some v → 0 ≤ v < 256 ^ Z.of_nat n.
Proof.
  unfold get_le. destruct (Z.leb_spec (Z.of_nat n) (len s)); [|discriminate].
  intros [= <-]. pose proof (le_decode_range (take n s)) as H'.
  unfold len in *. rewrite length_take in H'.
  replace (n `min` length s)%nat with n in H' by lia. exact H'.
Qed.

Lemma Uint16_range s v : Uint16 s = Some v → 0 ≤ v < 65536.
Proof. intros H. apply get_le_range in H. simpl in H. lia. Qed.

Lemma nkeys_range node n : nkeys node = Some n → 0 ≤ n < 65536.
Proof.
  unfold nkeys. destruct (slice node 2 4) as [s|]; [|discriminate].
  simpl. apply Uint16_range.
Qed.

(** ** Lookup *)

Section Lookup.
Variable node : list byte.
Variable key : list byte.
Variable n : Z.
Hypothesis Hn : n < 65536.

Lemma nodeLookupLE_loop_range steps i found r :
  1 ≤ i → i + Z.of_nat steps ≤ Z.max n 1 →
  nodeLookupLE_loop node key steps i found = Some r →
  r = found ∨ i ≤ r < i + Z.of_nat steps.
Proof using Hn.
  revert i found. induction steps as [|steps IH]; intros i found Hi Hs; simpl.
  - intros [= <-]. by left.
  - destruct (getKey node i) as [k|]; [simpl|discriminate].
    destruct (bytes_Compare k key >=? 0).
    + intros [= <-]. destruct (bytes_Compare k key <=? 0); [right; lia | by left].
    + unfold add16. rewrite u16_small by lia. intros H.
      apply IH in H; [|lia..].
      destruct (bytes_Compare k key <=? 0); lia.
Qed.

Lemma nodeLookupEQ_loop_range steps i r :
  1 ≤ i → i + Z.of_nat steps ≤ Z.max n 1 →
  nodeLookupEQ_loop node key steps i = Some r →
  r = 0 ∨ i ≤ r < i + Z.of_nat steps.
Proof using Hn.
  revert i. induction steps as [|steps IH]; intros i Hi Hs; simpl.
  - intros [= <-]. by left.
  - destruct (getKey node i) as [k|]; [simpl|discriminate].
    destruct (bytes_Equal k key).
    + intros [= <-]. right; lia.
    + unfold add16. rewrite u16_small by lia. intros H.
      apply IH in H; lia.
Qed.

Hypothesis Hread : keys_readable node n.

Lemma nodeLookupEQ_loop_spec steps i :
  1 ≤ i → i + Z.of_nat steps = Z.max n 1 →
  ∃ r, nodeLookupEQ_loop node key steps i = Some r ∧
    ((r = 0 ∧ ∀ j, i ≤ j < n → getKey node j ≠ Some key) ∨
     (i ≤ r < n ∧ getKey node r = Some key ∧
      ∀ j, i ≤ j < r → getKey node j ≠ Some key)).
Proof using Hn Hread.
  revert i. induction steps as [|steps IH]; intros i Hi Hs; simpl.
  - exists 0. split; [done|]. left. split; [done|]. intros j Hj. lia.
  - destruct (Hread i ltac:(lia)) as [k Hk]. rewrite Hk. simpl.
    destruct (bytes_Equal k key) eqn:E.
    + exists i. split; [done|]. right.
      apply bytes_Equal_Compare, bytes_Compare_eq in E. subst k.
      split; [lia|]. split; [done|]. intros j Hj. lia.
    + assert (k ≠ key) as Hne.
      { intros ->. unfold bytes_Equal in E.
        by rewrite bool_decide_eq_false in E. }
      unfold add16. rewrite u16_small by lia.
      destruct (IH (i + 1) ltac:(lia) ltac:(lia)) as (r & Hr & Hcase).
      exists r. split; [done|].
      destruct Hcase as [[-> Hall]|(Hrange & Hkey & Hfirst)].
      * left. split; [done|]. intros j Hj.
        destruct (decide (j = i)) as [->|]; [congruence | apply Hall; lia].
      * right. split; [lia|]. split; [done|]. intros j Hj.
        destruct (decide (j = i)) as [->|]; [congruence | apply Hfirst; lia].
Qed.

Hypothesis Hasc : keys_ascending node n.

Lemma nodeLookupLE_loop_spec steps i :
  1 ≤ i → i + Z.of_nat steps = Z.max n 1 →
  (∀ j kj, 1 ≤ j < i → getKey node j = Some kj → bytes_Compare kj key < 0) →
  ∃ r, nodeLookupLE_loop node key steps i (i - 1) = Some r ∧
    i - 1 ≤ r < Z.max n 1 ∧
    (∀ j kj, 1 ≤ j ≤ r → getKey node j = Some kj → bytes_Compare kj key ≤ 0) ∧
    (∀ j kj, r < j < n → getKey node j = Some kj → bytes_Compare kj key > 0).
Proof using Hn Hread Hasc.
  revert i. induction steps as [|steps IH]; intros i Hi Hs Hinv; simpl.
  - exists (i - 1). split; [done|]. split; [lia|]. split.
    + intros j kj Hj Hkj. apply Hinv in Hkj; lia.
    + intros j kj Hj. lia.
  - destruct (Hread i ltac:(lia)) as [k Hk]. rewrite Hk. simpl.
    destruct (Z.geb_spec (bytes_Compare k key) 0) as [Hge|Hlt].
    + (* break *)
      destruct (Z.leb_spec (bytes_Compare k key) 0) as [Hle|Hgt].
      * (* the key at i equals the search key *)
        assert (k = key) as -> by (apply bytes_Compare_eq; lia).
        exists i. split; [done|]. split; [lia|]. split.
        -- intros j kj Hj Hkj. destruct (decide (j = i)) as [->|].
           ++ rewrite Hk in Hkj. injection Hkj as <-. lia.
           ++ apply Hinv in Hkj; lia.
        -- intros j kj Hj Hkj.
           pose proof (Hasc i j key kj Hi ltac:(lia) ltac:(lia) Hk Hkj).
           rewrite (bytes_Compare_antisym key kj). lia.
      * (* the key at i is greater *)
        exists (i - 1). split; [done|]. split; [lia|]. split.
        -- intros j kj Hj Hkj. apply Hinv in Hkj; lia.
        -- intros j kj Hj Hkj. destruct (decide (j = i)) as [->|].
           ++ rewrite Hk in Hkj. injection Hkj as <-. lia.
           ++ pose proof (Hasc i j k kj Hi ltac:(lia) ltac:(lia) Hk Hkj) as H1.
              assert (bytes_Compare key k < 0) as H2
                by (rewrite (bytes_Compare_antisym k key); lia).
              pose proof (bytes_Compare_trans _ _ _ H2 H1).
              rewrite (bytes_Compare_antisym key kj). lia.
    + (* continue with found = i *)
      destruct (Z.leb_spec (bytes_Compare k key) 0) as [Hle|Hgt]; [|lia].
      unfold add16. rewrite u16_small by lia.
      destruct (IH (i + 1) ltac:(lia) ltac:(lia)) as (r & Hr & Hrange & Hle' & Hgt').
      { intros j kj Hj Hkj. destruct (decide (j = i)) as [->|].
        - rewrite Hk in Hkj. injection Hkj as <-. lia.
        - apply Hinv in Hkj; lia. }
      replace (i + 1 - 1) with i in Hr by lia.
      exists r. split; [exact Hr|]. split; [lia|]. exact (conj Hle' Hgt').
Qed.

End Lookup.

(** C5. On a node whose keys at 1 .. nkeys-1 are strictly ascending,
    [nodeLookupLE] returns the largest index of 1 .. nkeys-1 whose key is less
    than or equal to the search key, and 0 when no such index exists. *)
Theorem nodeLookupLE_greatest_le (node key : list byte) (n : Z) :
  nkeys node = Some n →
  keys_readable node n →
  keys_ascending node n →
  ∃ r, nodeLookupLE node key = Some r ∧ lookupLE_post node key n r.
Proof.
  intros Hn Hread Hasc. unfold nodeLookupLE. rewrite Hn. simpl.
  pose proof (nkeys_range _ _ Hn) as Hrange.
  destruct (nodeLookupLE_loop_spec node key n ltac:(lia) Hread Hasc
              (Z.to_nat (n - 1)) 1 ltac:(lia) ltac:(lia))
    as (r & Hr & Hb & Hle & Hgt).
  { intros j kj Hj. lia. }
  exists r. split; [exact Hr|].
  destruct (decide (r = 0)) as [->|Hr0].
  - left. split; [done|]. intros i ki Hi Hki. apply (Hgt i ki); [lia | done].
  - right. split; [lia|]. split.
    + destruct (Hread r ltac:(lia)) as [kr Hkr]. exists kr.
      split; [done|]. apply (Hle r kr); [lia | done].
    + intros i ki Hi Hki Hcmp. destruct (Z.le_gt_cases i r) as [|Hlt]; [done|].
      pose proof (Hgt i ki ltac:(lia) Hki). lia.
Qed.

Lemma nodeLookupLE_greatest_le_witness :
  ∃ r, nodeLookupLE node_bdf (bs "e") = Some r
       ∧ lookupLE_post node_bdf (bs "e") 3 r.
Proof.
  apply (nodeLookupLE_greatest_le node_bdf (bs "e") 3).
  - vm_compute. reflexivity.
  - intros i Hi. assert (i = 1 ∨ i = 2) as [-> | ->] by lia;
      eexists; vm_compute; reflexivity.
  - intros i j ki kj H1 H2 H3 Hi Hj.
    assert (i = 1) as -> by lia. assert (j = 2) as -> by lia.
    vm_compute in Hi, Hj. injection Hi as <-. injection Hj as <-.
    vm_compute. reflexivity.
Defined.

Example nodeLookupLE_e : nodeLookupLE node_bdf (bs "e") = Some 1.
Proof. vm_compute. reflexivity. Qed.

Example nodeLookupLE_a : nodeLookupLE node_bdf (bs "a") = Some 0.
Proof. vm_compute. reflexivity. Qed.

(** C6. [nodeLookupEQ] returns 0 exactly when no index of 1 .. nkeys-1 holds
    the search key; otherwise it returns the first such index (the only one
    when the keys are strictly ascending), which is never 0. *)
Theorem nodeLookupEQ_first_match (node key : list byte) (n : Z) :
  nkeys node = Some n →
  keys_readable node n →
  ∃ r, nodeLookupEQ node key = Some r ∧ lookupEQ_post node key n r.
Proof.
  intros Hn Hread. unfold nodeLookupEQ. rewrite Hn. simpl.
  pose proof (nkeys_range _ _ Hn) as Hrange.
  destruct (nodeLookupEQ_loop_spec node key n ltac:(lia) Hread
              (Z.to_nat (n - 1)) 1 ltac:(lia) ltac:(lia))
    as (r & Hr & Hcase).
  exists r. split; [exact Hr|]. unfold lookupEQ_post.
  destruct Hcase as [[-> Hnone]|(Hin & Hkey & Hfirst)].
  - split; [|done]. split; [intros _; exact Hnone | done].
  - split.
    + split; [lia|]. intros Hnone. destruct (Hnone r ltac:(lia) Hkey).
    + intros _. split; [lia|]. split; [done|]. split; [exact Hfirst|].
      intros Hasc j Hj Hjk.
      destruct (Z.lt_trichotomy j r) as [Hlt|[->|Hgt]]; [|done|].
      * destruct (Hfirst j ltac:(lia) Hjk).
      * pose proof (Hasc r j key key ltac:(lia) Hgt ltac:(lia) Hkey Hjk) as Hc.
        rewrite (proj2 (bytes_Compare_eq key key) eq_refl) in Hc. lia.
Qed.

Lemma nodeLookupEQ_first_match_witness :
  ∃ r, nodeLookupEQ node_bdf (bs "f") = Some r
       ∧ lookupEQ_post node_bdf (bs "f") 3 r.
Proof.
  apply (nodeLookupEQ_first_match node_bdf (bs "f") 3).
  - vm_compute. reflexivity.
  - intros i Hi. assert (i = 1 ∨ i = 2) as [-> | ->] by lia;
      eexists; vm_compute; reflexivity.
Defined.

Example nodeLookupEQ_f : nodeLookupEQ node_bdf (bs "f") = Some 2.
Proof. vm_compute. reflexivity. Qed.

(** C10. The index returned by [nodeLookupLE] and by [nodeLookupEQ] is below
    [nkeys] whenever [nkeys >= 1], and both return 0 for every search key
    whenever [nkeys <= 1]; on readable keys both do return. *)
Theorem lookup_index_in_range (node key : list byte) (n : Z) :
  nkeys node = Some n →
  (n ≤ 1 → nodeLookupLE node key = Some 0 ∧ nodeLookupEQ node key = Some 0) ∧
  (1 ≤ n →
     (∀ r, nodeLookupLE node key = Some r → 0 ≤ r < n) ∧
     (∀ r, nodeLookupEQ node key = Some r → 0 ≤ r < n)) ∧
  (keys_readable node n →
     is_Some (nodeLookupLE node key) ∧ is_Some (nodeLookupEQ node key)).
Proof.
  intros Hn. pose proof (nkeys_range _ _ Hn) as Hrange.
  unfold nodeLookupLE, nodeLookupEQ. rewrite Hn. simpl.
  split; [|split].
  - intros Hle. replace (Z.to_nat (n - 1)) with O by lia. done.
  - intros Hge. split; intros r Hr.
    + apply (nodeLookupLE_loop_range node key n) in Hr; lia.
    + apply (nodeLookupEQ_loop_range node key n) in Hr; lia.
  - intros Hread. split.
    + assert (∀ steps i found, 1 ≤ i → i + Z.of_nat steps = Z.max n 1 →
                is_Some (nodeLookupLE_loop node key steps i found)) as Htot.
      { induction steps as [|steps IH]; intros i found Hi Hs; simpl; [eauto|].
        destruct (Hread i ltac:(lia)) as [k ->]. simpl.
        destruct (bytes_Compare k key >=? 0); [eauto|].
        unfold add16. rewrite u16_small by lia. apply IH; lia. }
      apply Htot; lia.
    + destruct (nodeLookupEQ_loop_spec node key n ltac:(lia) Hread
                  (Z.to_nat (n - 1)) 1 ltac:(lia) ltac:(lia)) as (r & Hr & _).
      eauto.
Qed.

Lemma lookup_index_in_range_witness :
  (3 ≤ 1 → nodeLookupLE node_bdf (bs "b") = Some 0
           ∧ nodeLookupEQ node_bdf (bs "b") = Some 0) ∧
  (1 ≤ 3 →
     (∀ r, nodeLookupLE node_bdf (bs "b") = Some r → 0 ≤ r < 3) ∧
     (∀ r, nodeLookupEQ node_bdf (bs "b") = Some r → 0 ≤ r < 3)) ∧
  (keys_readable node_bdf 3 →
     is_Some (nodeLookupLE node_bdf (bs "b"))
     ∧ is_Some (nodeLookupEQ node_bdf (bs "b"))).
Proof.
  apply (lookup_index_in_range node_bdf (bs "b") 3).
  vm_compute. reflexivity.
Defined.

(** The key stored at index 0 only is reported as 0 by both scans. *)
Example lookup_key_at_index_0 :
  getKey node_bdf 0 = Some (bs "b") ∧
  nodeLookupEQ node_bdf (bs "b") = Some 0 ∧
  nodeLookupLE node_bdf (bs "b") = Some 0.
Proof. vm_compute. repeat split. Qed.

(** ** Writes keep the length of the buffer *)

Lemma slice_length b lo hi s :
  0 ≤ lo → slice b lo hi = Some s → len s = hi - lo.
Proof.
  unfold slice, len. intros Hlo.
  destruct (Z.leb_spec lo hi); [|discriminate].
  destruct (Z.leb_spec hi (Z.of_nat (length b))); [|discriminate].
  simpl. intros [= <-]. rewrite length_take, length_drop. lia.
Qed.

Lemma with_slice_length b lo hi f b' :
  0 ≤ lo →
  (∀ s s', f s = Some s' → length s' = length s) →
  with_slice b lo hi f = Some b' → length b' = length b.
Proof.
  intros Hlo Hf. unfold with_slice.
  destruct (slice b lo hi) as [s|] eqn:Hs; [simpl|discriminate].
  destruct (f s) as [s'|] eqn:Hs'; [simpl|discriminate].
  intros [= <-]. apply Hf in Hs'. pose proof (slice_length _ _ _ _ Hlo Hs) as Hl.
  unfold slice in Hs.
  destruct (Z.leb_spec lo hi); [|discriminate].
  destruct (Z.leb_spec hi (len b)); [|discriminate].
  unfold len in *. rewrite !length_app, length_take, length_drop. lia.
Qed.

Lemma le_encode_length n v : length (le_encode n v) = n.
Proof. revert v. induction n as [|n IH]; intros v; simpl; [done|]. by rewrite IH. Qed.

Lemma put_le_length n s v s' : put_le n s v = Some s' → length s' = length s.
Proof.
  unfold put_le, len. destruct (Z.leb_spec (Z.of_nat n) (Z.of_nat (length s)));
    [|discriminate].
  intros [= <-]. rewrite length_app, le_encode_length, length_drop. lia.
Qed.

Lemma copy_length dst src : length (copy dst src) = length dst.
Proof. unfold copy. rewrite length_app, length_take, length_drop. lia. Qed.




Lemma kvPos_range node idx p : kvPos node idx = Some p → 0 ≤ p < 65536.
Proof.
  unfold kvPos. destruct (nkeys node); [simpl|discriminate].
  destruct (getOffset node idx); [simpl|discriminate].
  intros [= <-]. apply u16_range.
Qed.



(** ** The heap: what an operation can change *)

Lemma update_frame (h h' : heap) r f r' :
  update h r f = Some h' → r' ≠ r → h' !! r' = h !! r'.
Proof.
  unfold update. destruct (h !! r) as [b|]; [simpl|discriminate].
  destruct (f b) as [b'|]; [simpl|discriminate].
  intros [= <-] Hne. by rewrite lookup_insert_ne.
Qed.


Lemma nodeAppendRange_update (h h' : heap) new old d s n :
  nodeAppendRange h new old d s n = Some h' →
  ∃ lo hi src,
    0 ≤ lo ∧
    update h new (λ b, with_slice b lo hi (λ x, Some (copy x src))) = Some h'.
Proof.
  unfold nodeAppendRange, read.
  destruct (h !! new ≫= _) as [lo|] eqn:Hlo; [simpl|discriminate].
  destruct (h !! old ≫= _) as [so|]; [simpl|discriminate].
  destruct (h !! old ≫= _) as [src|]; [simpl|discriminate].
  intros H. exists lo, (add16 lo n), src. split; [|done].
  destruct (h !! new) as [b|]; [simpl in Hlo|discriminate].
  apply kvPos_range in Hlo. lia.
Qed.

Lemma nodeAppendRange_frame (h h' : heap) new old d s n r :
  nodeAppendRange h new old d s n = Some h' → r ≠ new → h' !! r = h !! r.
Proof.
  intros H Hne. apply nodeAppendRange_update in H as (lo & hi & src & _ & H).
  by eapply update_frame.
Qed.


Lemma leafInsert_frame (h h' : heap) new old idx key val r :
  leafInsert h new old idx key val = Some h' → r ≠ new → h' !! r = h !! r.
Proof.
  unfold leafInsert.
  destruct (read h old nkeys) as [n|]; [simpl|discriminate].
  destruct (update h new _) as [h1|] eqn:H1; [simpl|discriminate].
  destruct (nodeAppendRange h1 new old 0 0 idx) as [h2|] eqn:H2;
    [simpl|discriminate].
  destruct (update h2 new _) as [h3|] eqn:H3; [simpl|discriminate].
  destruct (read h3 old nkeys) as [n'|]; [simpl|discriminate].
  intros H4 Hne.
  rewrite (nodeAppendRange_frame _ _ _ _ _ _ _ _ H4 Hne).
  rewrite (update_frame _ _ _ _ _ H3 Hne).
  rewrite (nodeAppendRange_frame _ _ _ _ _ _ _ _ H2 Hne).
  apply (update_frame _ _ _ _ _ H1 Hne).
Qed.


(** ** Reading and writing byte ranges *)

Lemma lookup_read_at b pos n (i : nat) :
  read_at b pos n !! i
  = if decide (i < Z.to_nat n)%nat then b !! (Z.to_nat pos + i)%nat else None.
Proof. unfold read_at. rewrite lookup_take, lookup_drop. done. Qed.

Lemma lookup_write_at b pos bs (i : nat) :
  0 ≤ pos → pos + len bs ≤ len b →
  write_at b pos bs !! i
  = if decide (i < Z.to_nat pos)%nat then b !! i
    else if decide (i < Z.to_nat pos + length bs)%nat
         then bs !! (i - Z.to_nat pos)%nat
         else b !! i.
Proof.
  unfold write_at, len. intros Hpos Hfit.
  assert (length (take (Z.to_nat pos) b) = Z.to_nat pos) as Ht
    by (rewrite length_take; lia).
  case_decide.
  - rewrite lookup_app_l by lia. rewrite lookup_take_lt by lia. done.
  - rewrite lookup_app_r by lia. rewrite Ht. case_decide.
    + rewrite lookup_app_l by lia. done.
    + rewrite lookup_app_r by lia. rewrite lookup_drop. f_equal. lia.
Qed.

Lemma length_write_at b pos bs :
  0 ≤ pos → pos + len bs ≤ len b → len (write_at b pos bs) = len b.
Proof.
  unfold write_at, len. intros Hpos Hfit.
  rewrite !length_app, length_take, length_drop. lia.
Qed.

Lemma read_write_same b pos bs :
  0 ≤ pos → pos + len bs ≤ len b →
  read_at (write_at b pos bs) pos (len bs) = bs.
Proof.
  intros Hpos Hfit. apply list_eq. intros i.
  rewrite lookup_read_at. pose proof (Nat2Z.id (length bs)) as Hid.
  fold (len bs) in Hid. case_decide.
  - rewrite lookup_write_at by done.
    rewrite decide_False by lia. rewrite decide_True by lia. f_equal. lia.
  - symmetry. apply lookup_ge_None. lia.
Qed.

Lemma read_write_other b pos bs q n :
  0 ≤ pos → pos + len bs ≤ len b → 0 ≤ q → 0 ≤ n →
  q + n ≤ pos ∨ pos + len bs ≤ q →
  read_at (write_at b pos bs) q n = read_at b q n.
Proof.
  intros Hpos Hfit Hq Hn Hdisj. apply list_eq. intros i.
  rewrite !lookup_read_at. case_decide; [|done].
  rewrite lookup_write_at by done. unfold len in *.
  case_decide; [done|]. case_decide; [lia|done].
Qed.

Lemma with_slice_from_put_le b pos n v :
  0 ≤ pos → pos + Z.of_nat n ≤ len b →
  with_slice_from b pos (λ s, put_le n s v)
  = Some (write_at b pos (le_encode n v)).
Proof.
  intros Hpos Hfit. unfold with_slice_from, with_slice, slice, write_at, len in *.
  rewrite (proj2 (Z.leb_le pos _)) by lia.
  rewrite Z.leb_refl. simpl.
  rewrite (take_ge (drop _ _)) by (rewrite length_drop; lia).
  unfold put_le, len. rewrite length_drop.
  rewrite (proj2 (Z.leb_le _ _)) by lia. simpl.
  by rewrite Nat2Z.id, drop_all, app_nil_r, drop_drop, le_encode_length.
Qed.

Lemma with_slice_from_copy b pos src :
  0 ≤ pos → pos + len src ≤ len b →
  with_slice_from b pos (λ s, Some (copy s src)) = Some (write_at b pos src).
Proof.
  intros Hpos Hfit. unfold with_slice_from, with_slice, slice, write_at, len in *.
  rewrite (proj2 (Z.leb_le pos _)) by lia.
  rewrite Z.leb_refl. simpl.
  rewrite (take_ge (drop _ _)) by (rewrite length_drop; lia).
  unfold copy. rewrite (take_ge src) by (rewrite length_drop; lia).
  by rewrite Nat2Z.id, drop_all, app_nil_r, drop_drop.
Qed.

Lemma slice_from_get_le b pos n :
  0 ≤ pos → pos + Z.of_nat n ≤ len b →
  slice_from b pos ≫= get_le n = Some (le_decode (read_at b pos (Z.of_nat n))).
Proof.
  intros Hpos Hfit. unfold slice_from, slice, read_at, len in *.
  rewrite (proj2 (Z.leb_le pos _)) by lia.
  rewrite Z.leb_refl. simpl.
  rewrite (take_ge (drop _ _)) by (rewrite length_drop; lia).
  unfold get_le, len. rewrite length_drop.
  rewrite (proj2 (Z.leb_le _ _)) by lia. by rewrite Nat2Z.id.
Qed.

Lemma slice_from_Uint16 b pos :
  0 ≤ pos → pos + 2 ≤ len b →
  slice_from b pos ≫= Uint16 = Some (le_decode (read_at b pos 2)).
Proof. intros. apply (slice_from_get_le b pos 2); lia. Qed.

Lemma le_decode_encode n v : le_decode (le_encode n v) = v mod 256 ^ Z.of_nat n.
Proof.
  revert v. induction n as [|n IH]; intros v.
  - simpl. by rewrite Z.mod_1_r.
  - cbn [le_encode le_decode]. rewrite IH, Z_of_byte_of_Z.
    rewrite Z.shiftr_div_pow2 by lia.
    rewrite Nat2Z.inj_succ, Z.pow_succ_r by lia.
    change (2 ^ 8) with 256.
    rewrite (Z.rem_mul_r v 256 (256 ^ Z.of_nat n)) by lia. done.
Qed.

(** ** The accessors as reads of byte ranges *)

Lemma nkeys_read b : 4 ≤ len b → nkeys b = Some (le_decode (read_at b 2 2)).
Proof.
  intros Hl. unfold nkeys, slice, Uint16, get_le, read_at, len in *.
  rewrite (proj2 (Z.leb_le 4 _)) by lia. simpl.
  rewrite length_take, length_drop.
  rewrite (proj2 (Z.leb_le _ _)) by lia.
  by rewrite take_idemp.
Qed.

Lemma nkeys_write_at b p bs :
  4 ≤ p → p + len bs ≤ len b → nkeys (write_at b p bs) = nkeys b.
Proof.
  intros Hp Hfit. assert (0 ≤ len bs) by (unfold len; lia).
  rewrite !nkeys_read by (rewrite ?length_write_at; lia).
  rewrite read_write_other by lia. done.
Qed.

Lemma offsetIdx_slot b n idx :
  nkeys b = Some n → 1 ≤ idx → slot n idx < 65536 →
  offsetIdx b idx = Some (slot n idx).
Proof.
  intros Hn Hidx Hs. pose proof (nkeys_range _ _ Hn).
  unfold offsetIdx, slot, add16, mul16, sub16, HEADER_SIZE in *.
  rewrite Hn. simpl. f_equal.
  rewrite (u16_small (idx - 1)) by lia.
  rewrite (u16_small (8 * n)) by lia.
  rewrite (u16_small (2 * (idx - 1))) by lia.
  rewrite (u16_small (4 + 8 * n)) by lia.
  apply u16_small. lia.
Qed.

Lemma getOffset_read b n idx :
  nkeys b = Some n → 1 ≤ idx → slot n idx + 2 ≤ len b → len b < 65536 →
  getOffset b idx = Some (le_decode (read_at b (slot n idx) 2)).
Proof.
  intros Hn Hidx Hfit Hl. unfold getOffset.
  rewrite (proj2 (Z.eqb_neq idx 0)) by lia.
  rewrite (offsetIdx_slot b n idx) by (done || lia). simpl.
  pose proof (nkeys_range _ _ Hn).
  apply (slice_from_get_le b (slot n idx) 2); unfold slot in *; lia.
Qed.

Lemma getOffset_write_at b n idx p bs :
  nkeys b = Some n → 0 ≤ idx → len b < 65536 →
  4 ≤ p → p + len bs ≤ len b →
  (1 ≤ idx → slot n idx + 2 ≤ len b) →
  (1 ≤ idx → p + len bs ≤ slot n idx ∨ slot n idx + 2 ≤ p) →
  getOffset (write_at b p bs) idx = getOffset b idx.
Proof.
  intros Hn Hidx Hl Hp Hpfit Hfit Hdisj.
  assert (0 ≤ len bs) by (unfold len; lia).
  pose proof (nkeys_range _ _ Hn).
  destruct (decide (idx = 0)) as [->|Hne]; [done|].
  rewrite (getOffset_read (write_at b p bs) n), (getOffset_read b n);
    rewrite ?length_write_at, ?nkeys_write_at; try (done || lia).
  unfold slot in *. rewrite read_write_other by lia. done.
Qed.

Lemma kvPos_value b n idx o :
  nkeys b = Some n → getOffset b idx = Some o →
  0 ≤ o → 4 + 10 * n + o < 65536 →
  kvPos b idx = Some (4 + 10 * n + o).
Proof.
  intros Hn Ho Ho0 Hs. pose proof (nkeys_range _ _ Hn).
  unfold kvPos, add16, mul16, HEADER_SIZE. rewrite Hn, Ho. simpl. f_equal.
  rewrite (u16_small (8 * n)), (u16_small (2 * n)) by lia.
  rewrite (u16_small (4 + 8 * n)) by lia.
  rewrite (u16_small (4 + 8 * n + 2 * n)) by lia.
  rewrite u16_small by lia. lia.
Qed.

Lemma getOffset_nonneg b idx o : getOffset b idx = Some o → 0 ≤ o < 65536.
Proof.
  unfold getOffset. destruct (idx =? 0); [intros [= <-]; lia|].
  destruct (offsetIdx b idx); [simpl|discriminate].
  destruct (slice_from b z); [simpl|discriminate].
  apply Uint16_range.
Qed.

Lemma getPtr_read b idx :
  0 ≤ idx → 4 + 8 * idx + 8 ≤ len b → len b < 65536 →
  getPtr b idx = Some (le_decode (read_at b (4 + 8 * idx) 8)).
Proof.
  intros Hidx Hfit Hl. unfold getPtr, add16, mul16, HEADER_SIZE.
  rewrite (u16_small (8 * idx)) by lia.
  rewrite (u16_small (4 + 8 * idx)) by lia.
  apply (slice_from_get_le b (4 + 8 * idx) 8); lia.
Qed.

Lemma getKey_read b idx pos klen :
  kvPos b idx = Some pos → 0 ≤ klen → pos + 4 + klen ≤ len b → len b < 65536 →
  le_decode (read_at b pos 2) = klen →
  getKey b idx = Some (read_at b (pos + 4) klen).
Proof.
  intros Hpos Hk Hfit Hl Hklen. pose proof (kvPos_range _ _ _ Hpos).
  unfold getKey. rewrite Hpos. simpl.
  rewrite (slice_from_Uint16 b pos) by lia. simpl. rewrite Hklen.
  unfold add16. rewrite u16_small by lia.
  unfold slice_from, slice, read_at, len in *.
  rewrite (proj2 (Z.leb_le (pos + 4) _)) by lia. rewrite Z.leb_refl. simpl.
  rewrite length_take, length_drop.
  rewrite (proj2 (Z.leb_le 0 klen)) by lia.
  rewrite (proj2 (Z.leb_le klen _)) by lia. simpl.
  rewrite drop_0, Z.sub_0_r, take_take. do 2 f_equal. lia.
Qed.

(** ** What [nodeAppendKV] writes, and what reads back *)

(** In range, [nodeAppendKV] returns, keeps the length and the key count of
    the buffer, and the pointer and the key of entry [idx] read back as they
    were written; the running offset of [idx] is kept and the one of [idx+1]
    is advanced by [4 + len key + len val]. *)
Lemma nodeAppendKV_reads_back_ptr_key new idx ptr key val n o :
  appendKV_in_range new idx ptr key val n o →
  ∃ new',
    nodeAppendKV new idx ptr key val = Some new' ∧
    len new' = len new ∧
    nkeys new' = Some n ∧
    getPtr new' idx = Some ptr ∧
    getKey new' idx = Some key ∧
    getOffset new' idx = Some o ∧
    getOffset new' (idx + 1) = Some (o + 4 + len key + len val).
Proof.
  intros (Hn & Hidx & Ho & Hfit & Hl & Hptr).
  pose proof (nkeys_range _ _ Hn) as Hnr.
  pose proof (getOffset_nonneg _ _ _ Ho) as Hor.
  assert (0 ≤ len key) as Hk0 by (unfold len; lia).
  assert (0 ≤ len val) as Hv0 by (unfold len; lia).
  set (pos := 4 + 10 * n + o).
  set (new1 := write_at new (4 + 8 * idx) (le_encode 8 ptr)).
  set (new2 := write_at new1 pos (le_encode 2 (u16 (len key)))).
  set (new3 := write_at new2 (pos + 2) (le_encode 2 (u16 (len val)))).
  set (new4 := write_at new3 (pos + 4) key).
  set (new5 := write_at new4 (pos + 4 + len key) val).
  set (off' := o + 4 + len key + len val).
  set (new6 := write_at new5 (slot n (idx + 1)) (le_encode 2 off')).
  assert (len (le_encode 8 ptr) = 8) as E8
    by (unfold len; rewrite le_encode_length; lia).
  assert (∀ v, len (le_encode 2 v) = 2) as E2
    by (intros; unfold len; rewrite le_encode_length; lia).
  assert (slot n idx + 2 ≤ 4 + 10 * n) as Hslot by (unfold slot; lia).
  assert (slot n (idx + 1) = slot n idx + 2) as Hslot' by (unfold slot; lia).
  assert (4 + 8 * n ≤ slot n (idx + 1)) as Hslot'' by (unfold slot; lia).
  (* lengths *)
  assert (len new1 = len new) as L1 by (apply length_write_at; lia).
  assert (len new2 = len new) as L2
    by (unfold new2; rewrite length_write_at; rewrite ?E2; lia).
  assert (len new3 = len new) as L3
    by (unfold new3; rewrite length_write_at; rewrite ?E2; lia).
  assert (len new4 = len new) as L4
    by (unfold new4; rewrite length_write_at; lia).
  assert (len new5 = len new) as L5
    by (unfold new5; rewrite length_write_at; lia).
  assert (len new6 = len new) as L6
    by (unfold new6; rewrite length_write_at; rewrite ?E2; lia).
  (* the key count survives every write *)
  assert (nkeys new1 = Some n) as N1
    by (unfold new1; rewrite nkeys_write_at; [done|lia..]).
  assert (nkeys new2 = Some n) as N2
    by (unfold new2; rewrite nkeys_write_at; rewrite ?E2; [done|lia..]).
  assert (nkeys new3 = Some n) as N3
    by (unfold new3; rewrite nkeys_write_at; rewrite ?E2; [done|lia..]).
  assert (nkeys new4 = Some n) as N4
    by (unfold new4; rewrite nkeys_write_at; [done|lia..]).
  assert (nkeys new5 = Some n) as N5
    by (unfold new5; rewrite nkeys_write_at; [done|lia..]).
  assert (nkeys new6 = Some n) as N6
    by (unfold new6; rewrite nkeys_write_at; rewrite ?E2; [done|lia..]).
  (* so does the running offset of idx *)
  assert (getOffset new1 idx = Some o) as O1.
  { unfold new1. rewrite (getOffset_write_at new n); rewrite ?E8;
      [done|done|unfold slot; lia..]. }
  assert (getOffset new2 idx = Some o) as O2.
  { unfold new2. rewrite (getOffset_write_at new1 n); rewrite ?E2;
      [done|done|unfold slot; lia..]. }
  assert (getOffset new3 idx = Some o) as O3.
  { unfold new3. rewrite (getOffset_write_at new2 n); rewrite ?E2;
      [done|done|unfold slot; lia..]. }
  assert (getOffset new4 idx = Some o) as O4.
  { unfold new4. rewrite (getOffset_write_at new3 n);
      [done|done|unfold slot; lia..]. }
  assert (getOffset new5 idx = Some o) as O5.
  { unfold new5. rewrite (getOffset_write_at new4 n);
      [done|done|unfold slot; lia..]. }
  assert (getOffset new6 idx = Some o) as O6.
  { unfold new6. rewrite (getOffset_write_at new5 n); rewrite ?E2;
      [done|done|unfold slot; lia..]. }
  exists new6. split; [|split; [done|split; [done|]]].
  - (* the run of nodeAppendKV *)
    unfold nodeAppendKV, setPtr, add16, mul16, HEADER_SIZE.
    rewrite (u16_small (8 * idx)) by lia.
    rewrite (u16_small (4 + 8 * idx)) by lia.
    unfold PutUint64. rewrite with_slice_from_put_le by lia.
    cbn [mbind option_bind]. fold new1.
    rewrite (kvPos_value new1 n idx o) by (done || lia).
    cbn [mbind option_bind]. fold pos.
    unfold PutUint16. rewrite with_slice_from_put_le by lia.
    cbn [mbind option_bind]. fold new2.
    rewrite (u16_small (pos + 2)) by lia.
    rewrite with_slice_from_put_le by lia.
    cbn [mbind option_bind]. fold new3.
    rewrite (u16_small (pos + 4)) by lia.
    rewrite with_slice_from_copy by lia.
    cbn [mbind option_bind]. fold new4.
    rewrite (u16_small (len key)) by lia.
    rewrite (u16_small (pos + 4 + len key)) by lia.
    rewrite with_slice_from_copy by lia.
    cbn [mbind option_bind]. fold new5.
    rewrite O5. cbn [mbind option_bind].
    unfold setOffset. rewrite (u16_small (idx + 1)) by lia.
    rewrite (offsetIdx_slot new5 n (idx + 1)) by (done || lia).
    cbn [mbind option_bind].
    rewrite (u16_small (o + 4)) by lia.
    rewrite (u16_small (len key + len val)) by lia.
    rewrite (u16_small (o + 4 + (len key + len val))) by lia.
    unfold PutUint16. rewrite with_slice_from_put_le by lia.
    unfold new6, off'. do 3 f_equal. lia.
  - split; [|split; [|split; [done|]]].
    + (* the pointer *)
      rewrite getPtr_read by lia. f_equal.
      unfold new6. rewrite read_write_other by (rewrite ?E2; unfold slot; lia).
      unfold new5. rewrite read_write_other by lia.
      unfold new4. rewrite read_write_other by lia.
      unfold new3. rewrite read_write_other by (rewrite ?E2; unfold slot; lia).
      unfold new2. rewrite read_write_other by (rewrite ?E2; unfold slot; lia).
      unfold new1. rewrite <- E8 at 2. rewrite read_write_same by lia.
      rewrite le_decode_encode. apply Z.mod_small. simpl. lia.
    + (* the key *)
      rewrite (getKey_read new6 idx pos (len key)).
      * f_equal.
        unfold new6. rewrite read_write_other by (rewrite ?E2; unfold slot; lia).
        unfold new5. rewrite read_write_other by lia.
        unfold new4. apply read_write_same; lia.
      * apply kvPos_value; (done || lia).
      * done.
      * lia.
      * lia.
      * unfold new6. rewrite read_write_other by (rewrite ?E2; unfold slot; lia).
        unfold new5. rewrite read_write_other by lia.
        unfold new4. rewrite read_write_other by lia.
        unfold new3. rewrite read_write_other by (rewrite ?E2; unfold slot; lia).
        unfold new2. rewrite <- (E2 (u16 (len key))) at 1.
        rewrite read_write_same by (rewrite ?E2; unfold slot; lia).
        rewrite le_decode_encode. rewrite (u16_small (len key)) by lia.
        apply Z.mod_small. simpl. lia.
    + (* the running offset of the next entry *)
      rewrite (getOffset_read new6 n) by (done || unfold slot; lia). f_equal.
      unfold new6. rewrite <- (E2 off') at 1.
      rewrite read_write_same by (rewrite ?E2; unfold slot; lia).
      rewrite le_decode_encode. apply Z.mod_small. unfold off'. simpl. lia.
Qed.

(** ** What [nodeAppendRange] copies *)

(** In range, [nodeAppendRange(new, old, dstNew, srcOld, n)] moves exactly [n]
    bytes: those of [old] from the position of its entry [dstNew] go to [new]
    at the position of its entry [srcOld]. *)
Lemma nodeAppendRange_moves_bytes (h : heap) new old dstNew srcOld n
    (bn bo : list byte) (pn po : Z) :
  h !! new = Some bn → h !! old = Some bo →
  kvPos bn srcOld = Some pn → kvPos bo dstNew = Some po →
  0 ≤ n → pn + n ≤ len bn → po + n ≤ len bo →
  len bn < 65536 → len bo < 65536 →
  nodeAppendRange h new old dstNew srcOld n
  = Some (<[new := write_at bn pn (read_at bo po n)]> h).
Proof.
  intros Hbn Hbo Hpn Hpo Hn Hfn Hfo Hln Hlo.
  pose proof (kvPos_range _ _ _ Hpn). pose proof (kvPos_range _ _ _ Hpo).
  unfold nodeAppendRange, read, update. rewrite Hbn, Hbo. simpl.
  rewrite Hpn, Hpo. simpl. unfold add16. rewrite !u16_small by lia.
  unfold with_slice, slice, len in *.
  rewrite (proj2 (Z.leb_le po (po + n))) by lia.
  rewrite (proj2 (Z.leb_le (po + n) _)) by lia. simpl.
  rewrite (proj2 (Z.leb_le pn (pn + n))) by lia.
  rewrite (proj2 (Z.leb_le (pn + n) _)) by lia. simpl.
  do 2 f_equal. unfold write_at, read_at, copy.
  replace (po + n - po) with n by lia. replace (pn + n - pn) with n by lia.
  assert (length (take (Z.to_nat n) (drop (Z.to_nat po) bo)) = Z.to_nat n) as Ls
    by (rewrite length_take, length_drop; lia).
  assert (length (take (Z.to_nat n) (drop (Z.to_nat pn) bn)) = Z.to_nat n) as Ld
    by (rewrite length_take, length_drop; lia).
  rewrite Ls, Ld. rewrite (take_ge (take _ (drop _ bo))) by lia.
  rewrite (drop_ge (take _ (drop _ bn))) by lia. rewrite app_nil_r.
  do 3 f_equal. lia.
Qed.

(** ** The builder on concrete pages *)

(** The general statement applies to entry 0 of a fresh one-entry leaf. *)
Example nodeAppendKV_reads_back_a1 :
  ∃ p new',
    setHeader page BNODE_LEAF_TYPE 1 = Some p ∧
    nodeAppendKV p 0 7 (bs "a") (bs "1") = Some new' ∧
    getPtr new' 0 = Some 7 ∧ getKey new' 0 = Some (bs "a").
Proof.
  exists (default page (setHeader page BNODE_LEAF_TYPE 1)).
  destruct (nodeAppendKV_reads_back_ptr_key
              (default page (setHeader page BNODE_LEAF_TYPE 1))
              0 7 (bs "a") (bs "1") 1 0)
    as (new' & Hrun & _ & _ & Hptr & Hkey & _).
  { unfold appendKV_in_range.
    split; [vm_compute; reflexivity|]. split; [lia|].
    split; [vm_compute; reflexivity|].
    split; [vm_compute; discriminate|].
    split; [vm_compute; reflexivity|]. lia. }
  exists new'. split; [vm_compute; reflexivity|].
  exact (conj Hrun (conj Hptr Hkey)).
Qed.

(** C1. [nodeAppendKV] on a fresh one-entry leaf: the pointer and the key read
    back, but [getVal] takes the value length from [pos+klen] where the entry
    stores it at [pos+2]; with a one-byte key it reads 256 and returns 256
    bytes for the one-byte value. *)
Theorem nodeAppendKV_getVal_reads_wrong_length :
  leaf_a1 = Some node_a1 ∧
  getPtr node_a1 0 = Some 7 ∧
  getKey node_a1 0 = Some (bs "a") ∧
  getVal node_a1 0 = Some (bs "1" ++ replicate 255 "000"%byte) ∧
  getVal node_a1 0 ≠ Some (bs "1").
Proof. vm_compute. repeat split; discriminate. Qed.

(** C2. [nodeAppendRange(new, old, 2, 0, 1)] with the leaf b, d, f as [new]
    and the leaf a .. h as [old]: entry 0 of [old] (key a) does not arrive at
    entry 2 of [new].  One byte is copied, from the position of entry 2 of
    [old] to the position of entry 0 of [new], and [new] is left as it was. *)
Theorem nodeAppendRange_copies_bytes_not_entries :
  getKey node8 0 = Some (bs "a") ∧
  produced (nodeAppendRange heap_range 0%nat 1%nat 2 0 1) = Some node_bdf ∧
  getKey node_bdf 2 = Some (bs "f").
Proof. vm_compute. repeat split. Qed.

(** C3. [leafInsert] of (a, 1) at index 0 of the leaf b, d, f into a fresh
    page: the result is a leaf with 4 keys, but the entries of the old node
    are not shifted into positions 1 .. 3. *)
Theorem leafInsert_does_not_shift_entries :
  keys4 node_bdf = [Some (bs "b"); Some (bs "d"); Some (bs "f"); Some []] ∧
  (produced (leafInsert heap_bdf 0%nat 1%nat 0 (bs "a") (bs "1")) ≫= btype)
    = Some BNODE_LEAF_TYPE ∧
  (produced (leafInsert heap_bdf 0%nat 1%nat 0 (bs "a") (bs "1")) ≫= nkeys)
    = Some 4 ∧
  keys4 <$> produced (leafInsert heap_bdf 0%nat 1%nat 0 (bs "a") (bs "1"))
    = Some [Some (bs "a"); Some []; Some (bs "a"); Some (bs "a")].
Proof. vm_compute. repeat split. Qed.



(** ** The page-size ceiling *)




(** ** Copy-on-write *)

(** C8. When the destination is not the source, the buffer of the source is
    the same after [nodeAppendRange], after [leafInsert] and after
    [nodeAppendKV] on the destination. *)
Theorem builder_leaves_source_unchanged (h h' : heap) (new old : loc) :
  new ≠ old →
  (∀ dstNew srcOld n,
     nodeAppendRange h new old dstNew srcOld n = Some h' →
     h' !! old = h !! old) ∧
  (∀ idx key val,
     leafInsert h new old idx key val = Some h' → h' !! old = h !! old) ∧
  (∀ idx ptr key val,
     update h new (λ b, nodeAppendKV b idx ptr key val) = Some h' →
     h' !! old = h !! old).
Proof.
  intros Hne. split; [|split].
  - intros d s n H. eapply nodeAppendRange_frame; [exact H | congruence].
  - intros idx key val H. eapply leafInsert_frame; [exact H | congruence].
  - intros idx ptr key val H. eapply update_frame; [exact H | congruence].
Qed.

Lemma builder_leaves_source_unchanged_witness :
  default ∅ (leafInsert heap_bdf 0%nat 1%nat 1 (bs "c") (bs "3")) !! 1%nat
    = Some node_bdf.
Proof.
  transitivity (heap_bdf !! 1%nat); [|vm_compute; reflexivity].
  apply (proj1 (proj2 (builder_leaves_source_unchanged
                         heap_bdf _ 0%nat 1%nat ltac:(lia)))
           1 (bs "c") (bs "3")).
  vm_compute. reflexivity.
Defined.

(** ** The two [setOffset] *)

(** C9, as stated, fails at index 0: the [setOffset] of [btree.go] writes the
    two bytes before the offset table (the top of the last child pointer),
    the one of the second file returns at once. *)
Lemma setOffset_differ_at_index_0 :
  (setOffset node_bdf 0 7 ≫= λ b, getPtr b 2) = Some 1970324836974592 ∧
  (Part000.setOffset node_bdf 0 7 ≫= λ b, getPtr b 2) = Some 0 ∧
  setOffset node_bdf 0 7 ≠ Part000.setOffset node_bdf 0 7.
Proof.
  split; [vm_compute; reflexivity|]. split; [vm_compute; reflexivity|].
  intros H. apply (f_equal (λ o, o ≫= λ b, getPtr b 2)) in H.
  vm_compute in H. discriminate.
Qed.

(** C9, amended. At every index other than 0 the two [setOffset] have the
    same effect on the buffer. *)
Theorem setOffset_agree_from_index_1 (node : list byte) (idx offset : Z) :
  idx ≠ 0 →
  setOffset node idx offset = Part000.setOffset node idx offset.
Proof.
  intros Hne. unfold setOffset, Part000.setOffset, offsetIdx, Part000.offsetPos.
  destruct (Z.eqb_spec idx 0); [contradiction | reflexivity].
Qed.

Lemma setOffset_agree_from_index_1_witness :
  setOffset node_bdf 2 12 = Part000.setOffset node_bdf 2 12.
Proof.
  apply (setOffset_agree_from_index_1 node_bdf 2 12). lia.
Defined.

(** * Further properties of the codec *)

Ltac by_compute := vm_compute; solve [reflexivity | discriminate | lia].

(** ** More on byte ranges *)

Lemma len_nonneg (b : list byte) : 0 ≤ len b.
Proof. unfold len. lia. Qed.

Lemma len_le_encode n v : len (le_encode n v) = Z.of_nat n.
Proof. unfold len. by rewrite le_encode_length. Qed.

Lemma len_read_at b pos n :
  0 ≤ pos → 0 ≤ n → pos + n ≤ len b → len (read_at b pos n) = n.
Proof.
  unfold len, read_at. intros. rewrite length_take, length_drop. lia.
Qed.

Lemma write_at_nil b pos : 0 ≤ pos → write_at b pos [] = b.
Proof.
  intros. unfold write_at. simpl. rewrite Nat.add_0_r. apply take_drop.
Qed.

Lemma read_write_inside b pos bs a m :
  0 ≤ pos → pos + len bs ≤ len b → 0 ≤ a → 0 ≤ m → a + m ≤ len bs →
  read_at (write_at b pos bs) (pos + a) m = read_at bs a m.
Proof.
  intros Hpos Hfit Ha Hm Hin. apply list_eq. intros i.
  rewrite !lookup_read_at. case_decide; [|done].
  rewrite lookup_write_at by done. unfold len in *.
  rewrite decide_False by lia. rewrite decide_True by lia. f_equal. lia.
Qed.

Lemma read_write_same_len b pos bs n :
  0 ≤ pos → n = len bs → pos + n ≤ len b →
  read_at (write_at b pos bs) pos n = bs.
Proof. intros ? -> ?. by apply read_write_same. Qed.

Lemma write_at_app b pos xs ys :
  0 ≤ pos → pos + len xs + len ys ≤ len b →
  write_at (write_at b pos xs) (pos + len xs) ys = write_at b pos (xs ++ ys).
Proof.
  intros Hpos Hfit. pose proof (len_nonneg xs). pose proof (len_nonneg ys).
  assert (len (xs ++ ys) = len xs + len ys) as Happ
    by (unfold len; rewrite length_app; lia).
  apply list_eq. intros i.
  rewrite !lookup_write_at; rewrite ?length_write_at; try lia.
  unfold len in *. rewrite length_app.
  repeat case_decide; try lia; try done.
  - rewrite lookup_app_l by lia. done.
  - rewrite lookup_app_r by lia. f_equal. lia.
Qed.

Lemma read_at_all (bs : list byte) : read_at bs 0 (len bs) = bs.
Proof.
  unfold read_at, len. simpl. rewrite drop_0, Nat2Z.id. apply take_ge. lia.
Qed.

Lemma le_decode_app xs ys :
  le_decode (xs ++ ys) = le_decode xs + 256 ^ len xs * le_decode ys.
Proof.
  unfold len. induction xs as [|x xs IH]; [simpl; lia|].
  cbn [app le_decode length]. rewrite IH, Nat2Z.inj_succ, Z.pow_succ_r by lia.
  lia.
Qed.

Lemma read_at_split b pos n m :
  0 ≤ pos → 0 ≤ n → 0 ≤ m →
  read_at b pos (n + m) = read_at b pos n ++ read_at b (pos + n) m.
Proof.
  intros. unfold read_at.
  replace (Z.to_nat (n + m)) with (Z.to_nat n + Z.to_nat m)%nat by lia.
  replace (Z.to_nat (pos + n)) with (Z.to_nat pos + Z.to_nat n)%nat by lia.
  rewrite <- drop_drop. by rewrite take_take_drop.
Qed.

(** ** The header *)

Lemma with_slice_put_le b lo n v :
  0 ≤ lo → lo + Z.of_nat n ≤ len b →
  with_slice b lo (lo + Z.of_nat n) (λ s, put_le n s v)
  = Some (write_at b lo (le_encode n v)).
Proof.
  intros Hlo Hfit. unfold with_slice, slice, write_at, len in *.
  rewrite (proj2 (Z.leb_le lo _)) by lia.
  rewrite (proj2 (Z.leb_le (lo + _) _)) by lia. simpl.
  unfold put_le, len. rewrite length_take, length_drop.
  rewrite (proj2 (Z.leb_le _ _)) by lia. simpl.
  rewrite le_encode_length.
  rewrite (drop_ge (take _ _)) by (rewrite length_take, length_drop; lia).
  rewrite app_nil_r. do 4 f_equal. lia.
Qed.

Lemma btype_read b : 2 ≤ len b → btype b = Some (le_decode (read_at b 0 2)).
Proof.
  intros Hl. unfold btype, slice, Uint16, get_le, read_at, len in *.
  rewrite (proj2 (Z.leb_le 2 _)) by lia. simpl.
  change (Z.to_nat (2 - 0)) with 2%nat. change (Z.to_nat 0) with 0%nat.
  change (Z.to_nat 2) with 2%nat.
  rewrite drop_0, length_take.
  rewrite (proj2 (Z.leb_le _ _)) by lia.
  by rewrite take_idemp.
Qed.

Lemma btype_write_at b p bs :
  2 ≤ p → p + len bs ≤ len b → btype (write_at b p bs) = btype b.
Proof.
  intros Hp Hfit. pose proof (len_nonneg bs).
  rewrite !btype_read by (rewrite ?length_write_at; lia).
  rewrite read_write_other by lia. done.
Qed.

Lemma setHeader_write b t n :
  4 ≤ len b →
  setHeader b t n
  = Some (write_at (write_at b 0 (le_encode 2 t)) 2 (le_encode 2 n)).
Proof.
  intros Hl. unfold setHeader, PutUint16.
  rewrite (with_slice_put_le b 0 2) by lia. cbn [mbind option_bind].
  apply (with_slice_put_le _ 2 2); [lia|].
  rewrite length_write_at; rewrite ?len_le_encode; lia.
Qed.

Lemma le_decode_encode_16 v : 0 ≤ v < 65536 → le_decode (le_encode 2 v) = v.
Proof. intros. rewrite le_decode_encode. apply Z.mod_small. simpl. lia. Qed.

Lemma le_decode_encode_64 v : 0 ≤ v < 2 ^ 64 → le_decode (le_encode 8 v) = v.
Proof. intros. rewrite le_decode_encode. apply Z.mod_small. simpl. lia. Qed.

Lemma setHeader_spec (node : list byte) (t n : Z) :
  4 ≤ len node → 0 ≤ t < 65536 → 0 ≤ n < 65536 →
  ∃ node',
    setHeader node t n = Some node' ∧
    btype node' = Some t ∧ nkeys node' = Some n ∧
    len node' = len node ∧
    ∀ q m, 4 ≤ q → 0 ≤ m → read_at node' q m = read_at node q m.
Proof.
  intros Hl Ht Hn. eexists. split; [by apply setHeader_write|].
  assert (len (write_at node 0 (le_encode 2 t)) = len node) as L1
    by (apply length_write_at; rewrite ?len_le_encode; lia).
  assert (len (write_at (write_at node 0 (le_encode 2 t)) 2 (le_encode 2 n))
          = len node) as L2
    by (rewrite length_write_at; rewrite ?len_le_encode; lia).
  split; [|split; [|split; [done|]]].
  - rewrite btype_read by lia.
    rewrite read_write_other by (rewrite ?len_le_encode; lia).
    rewrite read_write_same_len by (rewrite ?len_le_encode; lia).
    by rewrite le_decode_encode_16.
  - rewrite nkeys_read by lia.
    rewrite read_write_same_len by (rewrite ?len_le_encode; lia).
    by rewrite le_decode_encode_16.
  - intros q m Hq Hm.
    rewrite !read_write_other by (rewrite ?len_le_encode; lia). done.
Qed.

(** X1. On a buffer of at least 4 bytes [setHeader] returns, and [btype] and
    [nkeys] read back what was set; the length and every byte from offset 4
    on are kept. *)
Theorem setHeader_reads_back (node : list byte) (t n : Z) :
  4 ≤ len node → 0 ≤ t < 65536 → 0 ≤ n < 65536 →
  ∃ node',
    setHeader node t n = Some node' ∧
    btype node' = Some t ∧ nkeys node' = Some n ∧
    len node' = len node ∧
    ∀ q m, 4 ≤ q → 0 ≤ m → read_at node' q m = read_at node q m.
Proof. apply setHeader_spec. Qed.

Lemma setHeader_reads_back_witness :
  ∃ node',
    setHeader page BNODE_LEAF_TYPE 3 = Some node' ∧
    btype node' = Some BNODE_LEAF_TYPE ∧ nkeys node' = Some 3 ∧
    len node' = len page ∧
    ∀ q m, 4 ≤ q → 0 ≤ m → read_at node' q m = read_at page q m.
Proof.
  apply (setHeader_reads_back page BNODE_LEAF_TYPE 3).
  - by_compute.
  - unfold BNODE_LEAF_TYPE. lia.
  - lia.
Defined.


(** ** Child pointers *)

Lemma setPtr_write b idx v :
  0 ≤ idx → 4 + 8 * idx + 8 ≤ len b → len b < 65536 →
  setPtr b idx v = Some (write_at b (4 + 8 * idx) (le_encode 8 v)).
Proof.
  intros Hidx Hfit Hl. unfold setPtr, add16, mul16, HEADER_SIZE, PutUint64.
  rewrite (u16_small (8 * idx)) by lia.
  rewrite (u16_small (4 + 8 * idx)) by lia.
  apply with_slice_from_put_le; lia.
Qed.

(** X3. In range, [setPtr] returns and [getPtr] reads the pointer back; the
    header, the length and the other pointers are kept. *)
Theorem setPtr_getPtr_reads_back (node : list byte) (idx v : Z) :
  0 ≤ idx → 4 + 8 * idx + 8 ≤ len node → len node < 65536 → 0 ≤ v < 2 ^ 64 →
  ∃ node',
    setPtr node idx v = Some node' ∧
    getPtr node' idx = Some v ∧
    len node' = len node ∧
    btype node' = btype node ∧ nkeys node' = nkeys node ∧
    ∀ j, 0 ≤ j → j ≠ idx → 4 + 8 * j + 8 ≤ len node →
         getPtr node' j = getPtr node j.
Proof.
  intros Hidx Hfit Hl Hv. eexists. split; [by apply setPtr_write|].
  assert (len (write_at node (4 + 8 * idx) (le_encode 8 v)) = len node) as L
    by (apply length_write_at; rewrite ?len_le_encode; lia).
  split; [|split; [done|split; [|split]]].
  - rewrite getPtr_read by lia.
    rewrite read_write_same_len by (rewrite ?len_le_encode; lia).
    by rewrite le_decode_encode_64.
  - apply btype_write_at; rewrite ?len_le_encode; lia.
  - apply nkeys_write_at; rewrite ?len_le_encode; lia.
  - intros j Hj Hne Hjfit. rewrite !getPtr_read by lia.
    rewrite read_write_other by (rewrite ?len_le_encode; lia). done.
Qed.

Lemma setPtr_getPtr_reads_back_witness :
  ∃ node',
    setPtr node_bdf 1 4242 = Some node' ∧
    getPtr node' 1 = Some 4242 ∧
    len node' = len node_bdf ∧
    btype node' = btype node_bdf ∧ nkeys node' = nkeys node_bdf ∧
    ∀ j, 0 ≤ j → j ≠ 1 → 4 + 8 * j + 8 ≤ len node_bdf →
         getPtr node' j = getPtr node_bdf j.
Proof.
  apply (setPtr_getPtr_reads_back node_bdf 1 4242).
  - lia.
  - by_compute.
  - by_compute.
  - lia.
Defined.

Lemma slice_from_get_le_None b pos n :
  0 ≤ pos → len b < pos + Z.of_nat n → slice_from b pos ≫= get_le n = None.
Proof.
  intros Hpos Hlt. unfold slice_from, slice, len in *.
  rewrite Z.leb_refl, andb_true_r.
  destruct (Z.leb_spec pos (Z.of_nat (length b))); [simpl|done].
  unfold get_le, len. rewrite length_take, length_drop.
  rewrite (proj2 (Z.leb_gt _ _)) by lia. done.
Qed.

Lemma with_slice_from_put_le_None b pos n v :
  0 ≤ pos → len b < pos + Z.of_nat n →
  with_slice_from b pos (λ s, put_le n s v) = None.
Proof.
  intros Hpos Hlt. unfold with_slice_from, with_slice, slice, len in *.
  rewrite Z.leb_refl, andb_true_r.
  destruct (Z.leb_spec pos (Z.of_nat (length b))); [simpl|done].
  unfold put_le, len. rewrite length_take, length_drop.
  rewrite (proj2 (Z.leb_gt _ _)) by lia. done.
Qed.

(** X4. [getPtr] and [setPtr] panic exactly when the eight bytes of the slot,
    at [4 + 8*idx] computed in 16 bits, do not lie inside the buffer. *)
Theorem ptr_panics_out_of_buffer (node : list byte) (idx v : Z) :
  (getPtr node idx = None ↔ len node < add16 HEADER_SIZE (mul16 8 idx) + 8) ∧
  (setPtr node idx v = None ↔ len node < add16 HEADER_SIZE (mul16 8 idx) + 8).
Proof.
  unfold getPtr, setPtr.
  set (pos := add16 HEADER_SIZE (mul16 8 idx)).
  assert (0 ≤ pos < 65536) as Hpos by apply u16_range.
  destruct (Z.lt_ge_cases (len node) (pos + 8)) as [Hlt|Hge].
  - split; (split; [done|intros _]).
    + apply (slice_from_get_le_None node pos 8); lia.
    + apply (with_slice_from_put_le_None node pos 8); lia.
  - split.
    + pose proof (slice_from_get_le node pos 8 ltac:(lia) ltac:(lia)) as E.
      split; [intros H|lia].
      pose proof (H : slice_from node pos ≫= get_le 8 = None). congruence.
    + pose proof (with_slice_from_put_le node pos 8 v ltac:(lia) ltac:(lia))
        as E.
      split; [intros H|lia].
      pose proof (H : with_slice_from node pos (λ s, put_le 8 s v) = None).
      congruence.
Qed.

(** ** Offsets *)

Lemma setOffset_write b n idx v :
  nkeys b = Some n → 1 ≤ idx → slot n idx + 2 ≤ len b → len b < 65536 →
  setOffset b idx v = Some (write_at b (slot n idx) (le_encode 2 v)).
Proof.
  intros Hn Hidx Hfit Hl. pose proof (nkeys_range _ _ Hn).
  unfold setOffset. rewrite (offsetIdx_slot b n idx) by (done || lia).
  cbn [mbind option_bind]. unfold PutUint16.
  apply with_slice_from_put_le; unfold slot in *; lia.
Qed.

(** X5. For [1 <= idx <= nkeys] on a buffer that holds the offset table,
    [setOffset] returns and [getOffset] reads the offset back; the key count,
    the length, the other offsets and the pointers are kept. *)
Theorem setOffset_getOffset_reads_back (node : list byte) (n idx v : Z) :
  nkeys node = Some n → 1 ≤ idx ≤ n →
  4 + 10 * n ≤ len node → len node < 65536 → 0 ≤ v < 65536 →
  ∃ node',
    setOffset node idx v = Some node' ∧
    getOffset node' idx = Some v ∧
    len node' = len node ∧ nkeys node' = Some n ∧
    (∀ j, 1 ≤ j ≤ n → j ≠ idx → getOffset node' j = getOffset node j) ∧
    (∀ j, 0 ≤ j < n → getPtr node' j = getPtr node j).
Proof.
  intros Hn Hidx Hfit Hl Hv.
  assert (4 + 8 * n ≤ slot n idx ∧ slot n idx + 2 ≤ 4 + 10 * n) as Hs
    by (unfold slot; lia).
  eexists. split; [apply (setOffset_write node n); (done || lia)|].
  assert (len (write_at node (slot n idx) (le_encode 2 v)) = len node) as L
    by (apply length_write_at; rewrite ?len_le_encode; lia).
  assert (nkeys (write_at node (slot n idx) (le_encode 2 v)) = Some n) as N
    by (rewrite nkeys_write_at; rewrite ?len_le_encode; (done || lia)).
  split; [|split; [done|split; [done|split]]].
  - rewrite (getOffset_read _ n) by (done || lia).
    rewrite read_write_same_len by (rewrite ?len_le_encode; lia).
    by rewrite le_decode_encode_16.
  - intros j Hj Hne.
    apply (getOffset_write_at node n); rewrite ?len_le_encode;
      try (done || lia); unfold slot in *; lia.
  - intros j Hj. rewrite !getPtr_read by lia.
    rewrite read_write_other by (rewrite ?len_le_encode; lia). done.
Qed.

Lemma setOffset_getOffset_reads_back_witness :
  ∃ node',
    setOffset node_bdf 2 99 = Some node' ∧
    getOffset node' 2 = Some 99 ∧
    len node' = len node_bdf ∧ nkeys node' = Some 3 ∧
    (∀ j, 1 ≤ j ≤ 3 → j ≠ 2 → getOffset node' j = getOffset node_bdf j) ∧
    (∀ j, 0 ≤ j < 3 → getPtr node' j = getPtr node_bdf j).
Proof.
  apply (setOffset_getOffset_reads_back node_bdf 3 2 99).
  - by_compute.
  - lia.
  - by_compute.
  - by_compute.
  - lia.
Defined.

Lemma read_at_8_split b pos :
  0 ≤ pos → read_at b pos 8 = read_at b pos 6 ++ read_at b (pos + 6) 2.
Proof. intros. apply (read_at_split b pos 6 2); lia. Qed.

Lemma offsetIdx_0 b n :
  nkeys b = Some n → 4 + 8 * n < 65536 → offsetIdx b 0 = Some (2 + 8 * n).
Proof.
  intros Hn Hs. pose proof (nkeys_range _ _ Hn).
  unfold offsetIdx, add16, mul16, sub16, HEADER_SIZE. rewrite Hn. simpl.
  f_equal. change (u16 (2 * u16 (0 - 1))) with 65534.
  rewrite (u16_small (8 * n)) by lia. rewrite (u16_small (4 + 8 * n)) by lia.
  unfold u16. replace (4 + 8 * n + 65534) with (2 + 8 * n + 1 * 65536) by lia.
  rewrite Z_mod_plus_full. apply Z.mod_small. lia.
Qed.

(** X6. [setOffset] at index 0 (outside the documented restriction) writes
    the two bytes just before the offset table: on a node without keys it
    replaces the key count, otherwise it replaces the top 16 bits of the last
    child pointer. *)
Theorem setOffset_index_0_overwrites (node : list byte) (n v : Z) :
  nkeys node = Some n → 4 + 8 * n ≤ len node → len node < 65536 →
  0 ≤ v < 65536 →
  ∃ node',
    setOffset node 0 v = Some node' ∧
    (n = 0 → nkeys node' = Some v) ∧
    (1 ≤ n →
       nkeys node' = Some n ∧
       ∀ p, getPtr node (n - 1) = Some p →
            getPtr node' (n - 1) = Some (p mod 2 ^ 48 + 2 ^ 48 * v)).
Proof.
  intros Hn Hfit Hl Hv. pose proof (nkeys_range _ _ Hn) as Hnr.
  exists (write_at node (2 + 8 * n) (le_encode 2 v)).
  assert (len (write_at node (2 + 8 * n) (le_encode 2 v)) = len node) as L
    by (apply length_write_at; rewrite ?len_le_encode; lia).
  split; [|split].
  - unfold setOffset. rewrite (offsetIdx_0 node n) by (done || lia).
    cbn [mbind option_bind]. unfold PutUint16.
    apply with_slice_from_put_le; lia.
  - intros ->. rewrite nkeys_read by lia.
    rewrite read_write_same_len by (rewrite ?len_le_encode; lia).
    by rewrite le_decode_encode_16.
  - intros Hn1. split.
    + rewrite nkeys_write_at; rewrite ?len_le_encode; (done || lia).
    + intros p Hp. rewrite getPtr_read in Hp by lia.
      rewrite getPtr_read by lia. injection Hp as <-. f_equal.
      rewrite !read_at_8_split by lia. rewrite !le_decode_app.
      replace (4 + 8 * (n - 1) + 6) with (2 + 8 * n) by lia.
      rewrite read_write_same_len by (rewrite ?len_le_encode; lia).
      rewrite read_write_other by (rewrite ?len_le_encode; lia).
      rewrite le_decode_encode_16 by done.
      pose proof (le_decode_range (read_at node (4 + 8 * (n - 1)) 6)) as Hr.
      rewrite len_read_at in Hr by lia. rewrite len_read_at by lia.
      change (256 ^ 6) with (2 ^ 48) in *.
      rewrite (Z.mul_comm (2 ^ 48) (le_decode (read_at node (2 + 8 * n) 2))).
      rewrite Z_mod_plus_full. rewrite Z.mod_small by lia. lia.
Qed.

Lemma setOffset_index_0_overwrites_witness :
  ∃ node',
    setOffset node_bdf 0 7 = Some node' ∧
    (3 = 0 → nkeys node' = Some 7) ∧
    (1 ≤ 3 →
       nkeys node' = Some 3 ∧
       ∀ p, getPtr node_bdf (3 - 1) = Some p →
            getPtr node' (3 - 1) = Some (p mod 2 ^ 48 + 2 ^ 48 * 7)).
Proof.
  apply (setOffset_index_0_overwrites node_bdf 3 7).
  - by_compute.
  - by_compute.
  - by_compute.
  - lia.
Defined.

(** ** The size of a node *)

Lemma kvPos_mod b n idx o :
  nkeys b = Some n → getOffset b idx = Some o →
  kvPos b idx = Some ((4 + 10 * n + o) mod 65536).
Proof.
  intros Hn Ho. unfold kvPos. rewrite Hn, Ho. simpl. f_equal.
  unfold add16, mul16, u16, HEADER_SIZE.
  repeat (rewrite Zplus_mod_idemp_l || rewrite Zplus_mod_idemp_r).
  rewrite <- (Z.add_assoc ((4 + 8 * n) mod 65536)), Zplus_mod_idemp_l.
  rewrite (Z.add_comm ((2 * n) mod 65536) o), Z.add_assoc, Zplus_mod_idemp_r.
  f_equal. lia.
Qed.

(** X7. [nbytes] is [4 + 10*nkeys + getOffset(nkeys)] computed in 16 bits: it
    wraps around at 65536; a node without keys has [nbytes] 4. *)
Theorem nbytes_is_header_columns_and_last_offset (node : list byte) (n o : Z) :
  nkeys node = Some n → getOffset node n = Some o →
  nbytes node = Some ((4 + 10 * n + o) mod 65536) ∧
  (n = 0 → nbytes node = Some 4).
Proof.
  intros Hn Ho. unfold nbytes. rewrite Hn. cbn [mbind option_bind].
  split; [by apply kvPos_mod|].
  intros ->. rewrite (kvPos_mod node 0 0 0); [done|done|done].
Qed.

Lemma nbytes_is_header_columns_and_last_offset_witness :
  nbytes node_bdf = Some ((4 + 10 * 3 + 18) mod 65536) ∧
  (3 = 0 → nbytes node_bdf = Some 4).
Proof.
  apply (nbytes_is_header_columns_and_last_offset node_bdf 3 18); by_compute.
Defined.

(** * Further properties of the builder *)

(** ** The run of [nodeAppendKV] in closed form *)

Lemma len_app (xs ys : list byte) : len (xs ++ ys) = len xs + len ys.
Proof. unfold len. rewrite length_app. lia. Qed.

Lemma write_at_app' b pos q xs ys :
  0 ≤ pos → q = pos + len xs → pos + len xs + len ys ≤ len b →
  write_at (write_at b pos xs) q ys = write_at b pos (xs ++ ys).
Proof. intros ? -> ?. by apply write_at_app. Qed.

Lemma with_slice_from_copy_trunc b pos src :
  0 ≤ pos → pos ≤ len b →
  with_slice_from b pos (λ s, Some (copy s src))
  = Some (write_at b pos (take (Z.to_nat (len b - pos)) src)).
Proof.
  intros Hpos Hle.
  destruct (Z.le_gt_cases (pos + len src) (len b)) as [Hfit|Hover].
  - rewrite with_slice_from_copy by done.
    rewrite take_ge; [done|]. unfold len in *. lia.
  - unfold with_slice_from, with_slice, slice, write_at, len in *.
    rewrite (proj2 (Z.leb_le pos _)) by lia.
    rewrite Z.leb_refl. simpl.
    rewrite (take_ge (drop _ _)) by (rewrite length_drop; lia).
    unfold copy. rewrite length_drop, length_take.
    rewrite (drop_ge (drop _ _)) by (rewrite length_drop; lia).
    rewrite Nat2Z.id, drop_all, !app_nil_r.
    rewrite (drop_ge b) by lia. rewrite app_nil_r.
    do 3 f_equal. lia.
Qed.

Lemma stored_val_len new n o key val :
  4 + 10 * n + o + 4 + len key ≤ len new →
  len (stored_val new n o key val) ≤ len val ∧
  4 + 10 * n + o + 4 + len key + len (stored_val new n o key val) ≤ len new.
Proof.
  intros Hfit. unfold stored_val, len in *. rewrite length_take. lia.
Qed.

Lemma stored_val_all new n o key val :
  4 + 10 * n + o + 4 + len key + len val ≤ len new →
  stored_val new n o key val = val.
Proof. intros Hfit. unfold stored_val, len in *. apply take_ge. lia. Qed.

Lemma nodeAppendKV_run new idx ptr key val n o :
  appendKV_fits_key new idx key val n o →
  nodeAppendKV new idx ptr key val
  = Some (appendKV_result new idx ptr key val n o).
Proof.
  intros (Hn & Hidx & Ho & Hfit & Hl & Hoff).
  pose proof (nkeys_range _ _ Hn) as Hnr.
  pose proof (getOffset_nonneg _ _ _ Ho) as Hor.
  pose proof (len_nonneg key) as Hk0. pose proof (len_nonneg val) as Hv0.
  pose proof (stored_val_len new n o key val Hfit) as [Hsv1 Hsv2].
  pose proof (len_nonneg (stored_val new n o key val)) as Hsv0.
  unfold appendKV_result.
  set (pos := 4 + 10 * n + o) in *.
  set (val' := stored_val new n o key val) in *.
  set (new1 := write_at new (4 + 8 * idx) (le_encode 8 ptr)).
  assert (len new1 = len new) as L1
    by (apply length_write_at; rewrite ?len_le_encode; lia).
  assert (nkeys new1 = Some n) as N1
    by (unfold new1; rewrite nkeys_write_at; rewrite ?len_le_encode;
        (done || lia)).
  assert (getOffset new1 idx = Some o) as O1.
  { unfold new1. rewrite (getOffset_write_at new n); rewrite ?len_le_encode;
      [done|done|unfold slot; lia..]. }
  set (E := le_encode 2 (len key) ++ le_encode 2 (len val) ++ key ++ val').
  assert (len E = 4 + len key + len val') as LE
    by (unfold E; rewrite !len_app, !len_le_encode; lia).
  set (new5 := write_at new1 pos E).
  assert (len new5 = len new) as L5
    by (unfold new5; rewrite length_write_at; lia).
  assert (nkeys new5 = Some n) as N5
    by (unfold new5; rewrite nkeys_write_at; (done || lia)).
  assert (getOffset new5 idx = Some o) as O5.
  { unfold new5. rewrite (getOffset_write_at new1 n);
      [done|done|unfold slot; lia..]. }
  unfold nodeAppendKV. rewrite (setPtr_write new idx ptr) by lia.
  cbn [mbind option_bind]. fold new1.
  rewrite (kvPos_value new1 n idx o) by (done || lia).
  cbn [mbind option_bind]. fold pos.
  unfold PutUint16 at 1 2, add16.
  rewrite (u16_small (len key)), (u16_small (len val)) by lia.
  rewrite (u16_small (pos + 2)), (u16_small (pos + 4)) by lia.
  rewrite (u16_small (pos + 4 + len key)) by lia.
  rewrite with_slice_from_put_le by lia. cbn [mbind option_bind].
  rewrite with_slice_from_put_le
    by (rewrite ?length_write_at; rewrite ?len_le_encode; lia).
  cbn [mbind option_bind].
  rewrite (write_at_app' new1 pos (pos + 2)) by (rewrite ?len_le_encode; lia).
  rewrite with_slice_from_copy
    by (rewrite ?length_write_at; rewrite ?len_app, ?len_le_encode; lia).
  cbn [mbind option_bind].
  rewrite (write_at_app' new1 pos (pos + 4))
    by (rewrite ?len_app, ?len_le_encode; lia).
  rewrite with_slice_from_copy_trunc
    by (rewrite ?length_write_at; rewrite ?len_app, ?len_le_encode; lia).
  cbn [mbind option_bind].
  rewrite length_write_at by (rewrite ?len_app, ?len_le_encode; lia).
  rewrite L1.
  change (take (Z.to_nat (len new - (pos + 4 + len key))) val) with val'.
  rewrite (write_at_app' new1 pos (pos + 4 + len key))
    by (rewrite ?len_app, ?len_le_encode; lia).
  rewrite <- !app_assoc. fold E. fold new5.
  rewrite O5. cbn [mbind option_bind].
  rewrite (u16_small (idx + 1)) by lia.
  rewrite (u16_small (o + 4)) by lia.
  rewrite (u16_small (len key + len val)) by lia.
  rewrite (u16_small (o + 4 + (len key + len val))) by lia.
  rewrite (setOffset_write new5 n (idx + 1)) by (done || unfold slot; lia).
  do 3 f_equal. lia.
Qed.

Lemma read_at_app_l (xs ys : list byte) m :
  m = len xs → read_at (xs ++ ys) 0 m = xs.
Proof.
  intros ->. unfold read_at, len. simpl. rewrite drop_0, Nat2Z.id.
  apply take_app_length.
Qed.

Lemma read_at_app_r (xs ys : list byte) q a m :
  q = len xs + a → 0 ≤ a → read_at (xs ++ ys) q m = read_at ys a m.
Proof.
  intros -> Ha. unfold read_at, len.
  replace (Z.to_nat (Z.of_nat (length xs) + a))
    with (length xs + Z.to_nat a)%nat by lia.
  rewrite <- drop_drop. by rewrite drop_app_length.
Qed.

Section AppendKV.
Variables (new : list byte) (idx ptr : Z) (key val : list byte) (n o : Z).
Hypothesis Hfits : appendKV_fits_key new idx key val n o.

Let pos := 4 + 10 * n + o.
Let val' := stored_val new n o key val.
Let E := le_encode 2 (len key) ++ le_encode 2 (len val) ++ key ++ val'.
Let new' := appendKV_result new idx ptr key val n o.

Lemma appendKV_facts :
  0 ≤ n < 65536 ∧ 0 ≤ o < 65536 ∧ 0 ≤ len key ∧ 0 ≤ len val ∧
  0 ≤ len val' ≤ len val ∧ len E = 4 + len key + len val' ∧
  pos + len E ≤ len new.
Proof using Hfits.
  destruct Hfits as (Hn & Hidx & Ho & Hfit & Hl & Hoff).
  pose proof (stored_val_len new n o key val Hfit) as [Hsv1 Hsv2].
  pose proof (len_nonneg val').
  assert (len E = 4 + len key + len val') as LE
    by (unfold E; rewrite !len_app, !len_le_encode; lia).
  split; [by eapply nkeys_range|]. split; [by eapply getOffset_nonneg|].
  split; [apply len_nonneg|]. split; [apply len_nonneg|].
  split; [done|]. split; [done|]. unfold pos. fold val' in Hsv2. lia.
Qed.

Lemma appendKV_result_len : len new' = len new.
Proof using Hfits.
  pose proof appendKV_facts as (Hnr & Hor & Hk & Hv & Hv' & LE & HE).
  destruct Hfits as (Hn & Hidx & Ho & Hfit & Hl & Hoff).
  unfold new', appendKV_result. fold pos val' E.
  assert (len (write_at new (4 + 8 * idx) (le_encode 8 ptr)) = len new) as L1
    by (apply length_write_at; rewrite ?len_le_encode; lia).
  assert (len (write_at (write_at new (4 + 8 * idx) (le_encode 8 ptr)) pos E)
          = len new) as L2 by (rewrite length_write_at; lia).
  rewrite length_write_at; rewrite ?len_le_encode; unfold slot; lia.
Qed.

Lemma appendKV_result_outside q m :
  0 ≤ q → 0 ≤ m →
  q + m ≤ 4 + 8 * idx ∨ 4 + 8 * idx + 8 ≤ q →
  q + m ≤ pos ∨ pos + len E ≤ q →
  q + m ≤ slot n (idx + 1) ∨ slot n (idx + 1) + 2 ≤ q →
  read_at new' q m = read_at new q m.
Proof using Hfits.
  intros Hq Hm H1 H2 H3.
  pose proof appendKV_facts as (Hnr & Hor & Hk & Hv & Hv' & LE & HE).
  destruct Hfits as (Hn & Hidx & Ho & Hfit & Hl & Hoff).
  unfold new', appendKV_result. fold pos val' E.
  assert (len (write_at new (4 + 8 * idx) (le_encode 8 ptr)) = len new) as L1
    by (apply length_write_at; rewrite ?len_le_encode; lia).
  assert (len (write_at (write_at new (4 + 8 * idx) (le_encode 8 ptr)) pos E)
          = len new) as L2 by (rewrite length_write_at; lia).
  rewrite read_write_other by (rewrite ?len_le_encode; unfold slot in *; lia).
  rewrite read_write_other by lia.
  rewrite read_write_other by (rewrite ?len_le_encode; lia). done.
Qed.

Lemma appendKV_result_ptr :
  read_at new' (4 + 8 * idx) 8 = le_encode 8 ptr.
Proof using Hfits.
  pose proof appendKV_facts as (Hnr & Hor & Hk & Hv & Hv' & LE & HE).
  destruct Hfits as (Hn & Hidx & Ho & Hfit & Hl & Hoff).
  unfold new', appendKV_result. fold pos val' E.
  assert (len (write_at new (4 + 8 * idx) (le_encode 8 ptr)) = len new) as L1
    by (apply length_write_at; rewrite ?len_le_encode; lia).
  assert (len (write_at (write_at new (4 + 8 * idx) (le_encode 8 ptr)) pos E)
          = len new) as L2 by (rewrite length_write_at; lia).
  rewrite read_write_other by (rewrite ?len_le_encode; unfold slot in *; lia).
  rewrite read_write_other by lia.
  apply read_write_same_len; rewrite ?len_le_encode; lia.
Qed.

Lemma appendKV_result_inside a m :
  0 ≤ a → 0 ≤ m → a + m ≤ len E →
  read_at new' (pos + a) m = read_at E a m.
Proof using Hfits.
  intros Ha Hm Hin.
  pose proof appendKV_facts as (Hnr & Hor & Hk & Hv & Hv' & LE & HE).
  destruct Hfits as (Hn & Hidx & Ho & Hfit & Hl & Hoff).
  unfold new', appendKV_result. fold pos val' E.
  assert (len (write_at new (4 + 8 * idx) (le_encode 8 ptr)) = len new) as L1
    by (apply length_write_at; rewrite ?len_le_encode; lia).
  assert (len (write_at (write_at new (4 + 8 * idx) (le_encode 8 ptr)) pos E)
          = len new) as L2 by (rewrite length_write_at; lia).
  rewrite read_write_other by (rewrite ?len_le_encode; unfold slot in *; lia).
  apply read_write_inside; lia.
Qed.

Lemma appendKV_result_next_offset :
  read_at new' (slot n (idx + 1)) 2 = le_encode 2 (o + 4 + len key + len val).
Proof using Hfits.
  pose proof appendKV_facts as (Hnr & Hor & Hk & Hv & Hv' & LE & HE).
  destruct Hfits as (Hn & Hidx & Ho & Hfit & Hl & Hoff).
  unfold new', appendKV_result. fold pos val' E.
  assert (len (write_at new (4 + 8 * idx) (le_encode 8 ptr)) = len new) as L1
    by (apply length_write_at; rewrite ?len_le_encode; lia).
  assert (len (write_at (write_at new (4 + 8 * idx) (le_encode 8 ptr)) pos E)
          = len new) as L2 by (rewrite length_write_at; lia).
  apply read_write_same_len; rewrite ?len_le_encode; unfold slot; lia.
Qed.

Lemma appendKV_result_klen : read_at new' pos 2 = le_encode 2 (len key).
Proof using Hfits.
  pose proof appendKV_facts as (Hnr & Hor & Hk & Hv & Hv' & LE & HE).
  replace pos with (pos + 0) at 1 by lia.
  rewrite appendKV_result_inside by lia.
  unfold E. apply read_at_app_l. by rewrite len_le_encode.
Qed.

Lemma appendKV_result_vlen : read_at new' (pos + 2) 2 = le_encode 2 (len val).
Proof using Hfits.
  pose proof appendKV_facts as (Hnr & Hor & Hk & Hv & Hv' & LE & HE).
  rewrite appendKV_result_inside by lia.
  unfold E. rewrite (read_at_app_r _ _ 2 0) by (rewrite ?len_le_encode; lia).
  apply read_at_app_l. by rewrite len_le_encode.
Qed.

Lemma appendKV_result_key : read_at new' (pos + 4) (len key) = key.
Proof using Hfits.
  pose proof appendKV_facts as (Hnr & Hor & Hk & Hv & Hv' & LE & HE).
  rewrite appendKV_result_inside by lia.
  unfold E. rewrite (read_at_app_r _ _ 4 2) by (rewrite ?len_le_encode; lia).
  rewrite (read_at_app_r _ _ 2 0) by (rewrite ?len_le_encode; lia).
  by apply read_at_app_l.
Qed.

Lemma appendKV_result_val :
  read_at new' (pos + 4 + len key) (len val') = val'.
Proof using Hfits.
  pose proof appendKV_facts as (Hnr & Hor & Hk & Hv & Hv' & LE & HE).
  replace (pos + 4 + len key) with (pos + (4 + len key)) by lia.
  rewrite appendKV_result_inside by lia.
  unfold E.
  rewrite (read_at_app_r _ _ (4 + len key) (2 + len key))
    by (rewrite ?len_le_encode; lia).
  rewrite (read_at_app_r _ _ (2 + len key) (len key))
    by (rewrite ?len_le_encode; lia).
  rewrite (read_at_app_r _ _ (len key) 0) by lia.
  apply read_at_all.
Qed.

Lemma appendKV_result_nkeys : nkeys new' = Some n.
Proof using Hfits.
  pose proof appendKV_facts as (Hnr & Hor & Hk & Hv & Hv' & LE & HE).
  pose proof appendKV_result_len as L.
  destruct Hfits as (Hn & Hidx & Ho & Hfit & Hl & Hoff).
  rewrite nkeys_read by lia. rewrite nkeys_read in Hn by (unfold pos in *; lia).
  rewrite appendKV_result_outside; [done|lia..| |]; unfold slot, pos in *; lia.
Qed.

Lemma appendKV_result_btype : btype new' = btype new.
Proof using Hfits.
  pose proof appendKV_facts as (Hnr & Hor & Hk & Hv & Hv' & LE & HE).
  pose proof appendKV_result_len as L.
  destruct Hfits as (Hn & Hidx & Ho & Hfit & Hl & Hoff).
  rewrite !btype_read by (unfold pos in *; lia).
  rewrite appendKV_result_outside; [done|lia..| |]; unfold slot, pos in *; lia.
Qed.

Lemma appendKV_result_getOffset i :
  0 ≤ i ≤ idx → getOffset new' i = getOffset new i.
Proof using Hfits.
  intros Hi.
  pose proof appendKV_facts as (Hnr & Hor & Hk & Hv & Hv' & LE & HE).
  pose proof appendKV_result_len as L. pose proof appendKV_result_nkeys as N.
  destruct Hfits as (Hn & Hidx & Ho & Hfit & Hl & Hoff).
  destruct (decide (i = 0)) as [->|Hne]; [done|].
  rewrite (getOffset_read new' n), (getOffset_read new n);
    try (done || unfold slot, pos in *; lia).
  rewrite appendKV_result_outside; [done|..]; unfold slot, pos in *; lia.
Qed.

Lemma appendKV_result_getPtr i :
  0 ≤ i < n → i ≠ idx → getPtr new' i = getPtr new i.
Proof using Hfits.
  intros Hi Hne.
  pose proof appendKV_facts as (Hnr & Hor & Hk & Hv & Hv' & LE & HE).
  pose proof appendKV_result_len as L.
  destruct Hfits as (Hn & Hidx & Ho & Hfit & Hl & Hoff).
  rewrite !getPtr_read by (unfold pos in *; lia).
  rewrite appendKV_result_outside; [done|..]; unfold slot, pos in *; lia.
Qed.

End AppendKV.

Lemma appendKV_in_range_fits new idx ptr key val n o :
  appendKV_in_range new idx ptr key val n o →
  appendKV_fits_key new idx key val n o ∧
  stored_val new n o key val = val ∧ 0 ≤ ptr < 2 ^ 64.
Proof.
  intros (Hn & Hidx & Ho & Hfit & Hl & Hptr).
  pose proof (nkeys_range _ _ Hn). pose proof (getOffset_nonneg _ _ _ Ho).
  pose proof (len_nonneg key). pose proof (len_nonneg val).
  split; [|split; [by apply stored_val_all|done]].
  unfold appendKV_fits_key. repeat split; try (done || lia).
Qed.

(** ** What an entry looks like in the buffer *)

(** X8. In range, [nodeAppendKV] lays the entry out as the file comment says:
    at the position of entry [idx] the buffer holds klen, vlen (two bytes
    each, little endian), the key and the value; the pointer slot holds the
    pointer and the offset slot of [idx+1] the running offset. *)
Theorem nodeAppendKV_writes_documented_layout (new : list byte) (idx ptr : Z)
    (key val : list byte) (n o : Z) :
  appendKV_in_range new idx ptr key val n o →
  ∃ new',
    nodeAppendKV new idx ptr key val = Some new' ∧
    read_at new' (4 + 10 * n + o) (4 + len key + len val) = entry_bytes key val ∧
    read_at new' (4 + 8 * idx) 8 = le_encode 8 ptr ∧
    read_at new' (4 + 8 * n + 2 * idx) 2
      = le_encode 2 (o + 4 + len key + len val).
Proof.
  intros Hin. destruct (appendKV_in_range_fits _ _ _ _ _ _ _ Hin)
    as (Hfits & Hsv & Hptr).
  exists (appendKV_result new idx ptr key val n o).
  split; [by apply nodeAppendKV_run|].
  pose proof (appendKV_facts new idx key val n o Hfits) as F.
  cbv zeta in F. rewrite Hsv in F.
  destruct F as (Hnr & Hor & Hk & Hv & Hv' & LE & HE).
  split; [|split].
  - pose proof (appendKV_result_inside new idx ptr key val n o Hfits
                  0 (4 + len key + len val)) as H.
    cbv zeta in H. rewrite Hsv, Z.add_0_r in H. rewrite H by lia.
    rewrite <- LE. apply read_at_all.
  - apply (appendKV_result_ptr new idx ptr key val n o Hfits).
  - pose proof (appendKV_result_next_offset new idx ptr key val n o Hfits) as H.
    unfold slot in H. rewrite <- H. f_equal. lia.
Qed.

Lemma nodeAppendKV_writes_documented_layout_witness :
  ∃ new',
    nodeAppendKV node_a1 0 9 (bs "xy") (bs "123") = Some new' ∧
    read_at new' (4 + 10 * 1 + 0) (4 + len (bs "xy") + len (bs "123"))
      = entry_bytes (bs "xy") (bs "123") ∧
    read_at new' (4 + 8 * 0) 8 = le_encode 8 9 ∧
    read_at new' (4 + 8 * 1 + 2 * 0) 2
      = le_encode 2 (0 + 4 + len (bs "xy") + len (bs "123")).
Proof.
  apply (nodeAppendKV_writes_documented_layout node_a1 0 9 (bs "xy") (bs "123")
           1 0).
  unfold appendKV_in_range.
  split; [by_compute|]. split; [lia|]. split; [by_compute|].
  split; [by_compute|]. split; [by_compute|]. lia.
Defined.

Lemma getKey_Some_inv b idx pos k :
  kvPos b idx = Some pos → pos + 4 < 65536 → getKey b idx = Some k →
  pos + 4 + len k ≤ len b ∧ le_decode (read_at b pos 2) = len k ∧
  read_at b (pos + 4) (len k) = k.
Proof.
  intros Hpos Hs. pose proof (kvPos_range _ _ _ Hpos) as Hp.
  unfold getKey. rewrite Hpos. cbn [mbind option_bind].
  destruct (Z.le_gt_cases (pos + 2) (len b)) as [Hfit|Hover].
  - rewrite (slice_from_Uint16 b pos) by lia. cbn [mbind option_bind].
    unfold add16. rewrite u16_small by lia.
    pose proof (le_decode_range (read_at b pos 2)) as Hr.
    unfold slice_from, slice, read_at, len in *.
    rewrite Z.leb_refl, andb_true_r.
    destruct (Z.leb_spec (pos + 4) (Z.of_nat (length b))) as [H4|H4];
      [cbn [mbind option_bind]|done].
    rewrite Z.sub_0_r.
    destruct (Z.leb_spec 0 (le_decode (take (Z.to_nat 2) (drop (Z.to_nat pos) b))))
      as [H0|H0]; [|lia]. cbn [andb].
    rewrite length_take, length_drop.
    destruct (Z.leb_spec (le_decode (take (Z.to_nat 2) (drop (Z.to_nat pos) b)))
                (Z.of_nat (Z.to_nat (Z.of_nat (length b) - (pos + 4))
                             `min` (length b - Z.to_nat (pos + 4)))))
      as [Hk|Hk]; [|done].
    intros [= <-]. change (Z.to_nat 0) with 0%nat. rewrite drop_0, take_take.
    rewrite !length_take, !length_drop.
    split; [lia|]. split; [lia|]. f_equal. lia.
  - pose proof (slice_from_get_le_None b pos 2 ltac:(lia) ltac:(lia)) as E.
    intros H.
    pose proof (H : (slice_from b pos ≫= get_le 2) ≫=
                    (λ klen, s ← slice_from b (add16 pos 4); slice s 0 klen)
                    = Some k) as H'.
    rewrite E in H'. discriminate.
Qed.

(** X9. An append leaves everything before it alone: with the header and the
    key of entry [idx] in range, [nodeAppendKV] keeps the length, the node
    type, the key count, every other pointer, the offsets up to [idx], and
    the key of every earlier entry that ends before entry [idx] starts. *)
Theorem nodeAppendKV_keeps_earlier_entries (new : list byte) (idx ptr : Z)
    (key val : list byte) (n o : Z) :
  appendKV_fits_key new idx key val n o →
  ∃ new',
    nodeAppendKV new idx ptr key val = Some new' ∧
    len new' = len new ∧ btype new' = btype new ∧ nkeys new' = Some n ∧
    (∀ i, 0 ≤ i < n → i ≠ idx → getPtr new' i = getPtr new i) ∧
    (∀ i, 0 ≤ i ≤ idx → getOffset new' i = getOffset new i) ∧
    (∀ i oi ki, 0 ≤ i < idx →
       getOffset new i = Some oi → getKey new i = Some ki →
       oi + 4 + len ki ≤ o →
       getKey new' i = Some ki).
Proof.
  intros Hfits. exists (appendKV_result new idx ptr key val n o).
  split; [by apply nodeAppendKV_run|].
  pose proof (appendKV_result_len new idx ptr key val n o Hfits) as L.
  pose proof (appendKV_result_nkeys new idx ptr key val n o Hfits) as N.
  pose proof (appendKV_facts new idx key val n o Hfits) as F. cbv zeta in F.
  destruct F as (Hnr & Hor & Hk & Hv & Hv' & LE & HE).
  split; [done|]. split; [by apply appendKV_result_btype|]. split; [done|].
  split; [intros; by apply appendKV_result_getPtr|].
  split; [intros; by apply appendKV_result_getOffset|].
  intros i oi ki Hi Hoi Hki Hbefore.
  destruct Hfits as (Hn & Hidx & Ho & Hfit & Hl & Hoff).
  pose proof (getOffset_nonneg _ _ _ Hoi) as Hoir.
  pose proof (len_nonneg ki) as Hki0.
  assert (kvPos new i = Some (4 + 10 * n + oi)) as Hpos
    by (apply kvPos_value; (done || lia)).
  destruct (getKey_Some_inv new i _ ki Hpos ltac:(lia) Hki)
    as (Hkfit & Hklen & Hkbytes).
  assert (appendKV_fits_key new idx key val n o) as Hfits
    by (unfold appendKV_fits_key; done).
  rewrite (getKey_read _ i (4 + 10 * n + oi) (len ki)).
  - f_equal. rewrite <- Hkbytes at 2.
    apply (appendKV_result_outside new idx ptr key val n o Hfits);
      unfold slot; lia.
  - apply kvPos_value; [done| |lia|lia].
    rewrite (appendKV_result_getOffset new idx ptr key val n o Hfits) by lia.
    done.
  - lia.
  - lia.
  - lia.
  - rewrite <- Hklen. f_equal.
    apply (appendKV_result_outside new idx ptr key val n o Hfits);
      unfold slot; lia.
Qed.

Lemma nodeAppendKV_keeps_earlier_entries_witness :
  ∃ new',
    nodeAppendKV node_bdf 2 5 (bs "g") (bs "77") = Some new' ∧
    len new' = len node_bdf ∧ btype new' = btype node_bdf ∧
    nkeys new' = Some 3 ∧
    (∀ i, 0 ≤ i < 3 → i ≠ 2 → getPtr new' i = getPtr node_bdf i) ∧
    (∀ i, 0 ≤ i ≤ 2 → getOffset new' i = getOffset node_bdf i) ∧
    (∀ i oi ki, 0 ≤ i < 2 →
       getOffset node_bdf i = Some oi → getKey node_bdf i = Some ki →
       oi + 4 + len ki ≤ 12 →
       getKey new' i = Some ki).
Proof.
  apply (nodeAppendKV_keeps_earlier_entries node_bdf 2 5 (bs "g") (bs "77")
           3 12).
  unfold appendKV_fits_key.
  split; [by_compute|]. split; [lia|]. split; [by_compute|].
  split; [by_compute|]. split; by_compute.
Defined.

(** ** Reading an entry back *)

Lemma slice_from_drop b lo :
  0 ≤ lo → lo ≤ len b → slice_from b lo = Some (drop (Z.to_nat lo) b).
Proof.
  intros Hlo Hle. unfold slice_from, slice, len in *.
  rewrite (proj2 (Z.leb_le lo _)) by lia. rewrite Z.leb_refl. simpl.
  rewrite take_ge; [done|]. rewrite length_drop. lia.
Qed.

Lemma slice_0_take b hi :
  0 ≤ hi → hi ≤ len b → slice b 0 hi = Some (take (Z.to_nat hi) b).
Proof.
  intros Hhi Hle. unfold slice, len in *.
  rewrite (proj2 (Z.leb_le 0 _)) by lia.
  rewrite (proj2 (Z.leb_le hi _)) by lia. simpl.
  by rewrite Z.sub_0_r, drop_0.
Qed.

Lemma getVal_read b idx pos klen vlen :
  kvPos b idx = Some pos →
  le_decode (read_at b pos 2) = klen →
  le_decode (read_at b (pos + klen) 2) = vlen →
  pos + klen + 2 ≤ len b → pos + 4 + klen + vlen ≤ len b → len b < 65536 →
  getVal b idx = Some (read_at b (pos + 4 + klen) vlen).
Proof.
  intros Hpos Hklen Hvlen Hf1 Hf2 Hl. pose proof (kvPos_range _ _ _ Hpos).
  pose proof (le_decode_range (read_at b pos 2)) as Hkr.
  pose proof (le_decode_range (read_at b (pos + klen) 2)) as Hvr.
  rewrite Hklen in Hkr. rewrite Hvlen in Hvr.
  unfold getVal. rewrite Hpos. cbn [mbind option_bind].
  rewrite (slice_from_Uint16 b pos) by lia. cbn [mbind option_bind].
  rewrite Hklen. unfold add16. rewrite (u16_small (pos + klen)) by lia.
  rewrite (slice_from_Uint16 b (pos + klen)) by lia. cbn [mbind option_bind].
  rewrite Hvlen. rewrite (u16_small (pos + 4)) by lia.
  rewrite (slice_from_drop b (pos + 4)) by lia. cbn [mbind option_bind].
  rewrite slice_from_drop by (unfold len in *; rewrite ?length_drop; lia).
  cbn [mbind option_bind].
  rewrite slice_0_take by (unfold len in *; rewrite ?length_drop; lia).
  unfold read_at. rewrite drop_drop. do 3 f_equal. lia.
Qed.

(** X10. [getVal] takes the value length from [pos+klen].  For a key of two
    bytes that is where [nodeAppendKV] stored it, and the value reads back. *)
Theorem getVal_reads_back_for_2_byte_keys (new : list byte) (idx ptr : Z)
    (key val : list byte) (n o : Z) :
  appendKV_in_range new idx ptr key val n o → len key = 2 →
  ∃ new',
    nodeAppendKV new idx ptr key val = Some new' ∧
    getVal new' idx = Some val.
Proof.
  intros Hin Hk2. destruct (appendKV_in_range_fits _ _ _ _ _ _ _ Hin)
    as (Hfits & Hsv & Hptr).
  exists (appendKV_result new idx ptr key val n o).
  split; [by apply nodeAppendKV_run|].
  pose proof (appendKV_facts new idx key val n o Hfits) as F.
  pose proof (appendKV_result_len new idx ptr key val n o Hfits) as L.
  pose proof (appendKV_result_nkeys new idx ptr key val n o Hfits) as N.
  pose proof (appendKV_result_klen new idx ptr key val n o Hfits) as Rk.
  pose proof (appendKV_result_vlen new idx ptr key val n o Hfits) as Rv.
  pose proof (appendKV_result_val new idx ptr key val n o Hfits) as Rval.
  pose proof (appendKV_result_getOffset new idx ptr key val n o Hfits idx) as RO.
  cbv zeta in F, Rk, Rv, Rval. rewrite Hsv in F, Rval.
  destruct F as (Hnr & Hor & Hk & Hv & Hv' & LE & HE).
  destruct Hfits as (Hn & Hidx & Ho & Hfit & Hl & Hoff).
  rewrite (getVal_read _ idx (4 + 10 * n + o) 2 (len val)).
  - f_equal. rewrite <- Hk2. exact Rval.
  - apply kvPos_value; [done| |lia|lia]. rewrite RO by lia. done.
  - rewrite Rk, Hk2. by apply le_decode_encode_16.
  - rewrite Rv. apply le_decode_encode_16. lia.
  - lia.
  - lia.
  - lia.
Qed.

Lemma getVal_reads_back_for_2_byte_keys_witness :
  ∃ new',
    nodeAppendKV node_a1 0 9 (bs "xy") (bs "123") = Some new' ∧
    getVal new' 0 = Some (bs "123").
Proof.
  apply (getVal_reads_back_for_2_byte_keys node_a1 0 9 (bs "xy") (bs "123")
           1 0).
  - unfold appendKV_in_range.
    split; [by_compute|]. split; [lia|]. split; [by_compute|].
    split; [by_compute|]. split; [by_compute|]. lia.
  - by_compute.
Defined.

(** ** A value that does not fit *)

(** X12. When the header and the key of the entry fit the buffer, the value
    need not: [nodeAppendKV] still returns, the key reads back, the buffer
    holds the bytes of the value that fit and no more, and the running offset
    of the next entry is advanced by the full [4 + len key + len val]. *)
Theorem nodeAppendKV_stores_the_bytes_that_fit (new : list byte) (idx ptr : Z)
    (key val : list byte) (n o : Z) :
  appendKV_fits_key new idx key val n o →
  ∃ new',
    nodeAppendKV new idx ptr key val = Some new' ∧
    len new' = len new ∧
    getKey new' idx = Some key ∧
    getOffset new' (idx + 1) = Some (o + 4 + len key + len val) ∧
    read_at new' (4 + 10 * n + o + 4 + len key)
      (len (stored_val new n o key val)) = stored_val new n o key val ∧
    len (stored_val new n o key val)
      = Z.min (len val) (len new - (4 + 10 * n + o + 4 + len key)).
Proof.
  intros Hfits.
  exists (appendKV_result new idx ptr key val n o).
  split; [by apply nodeAppendKV_run|].
  pose proof (appendKV_facts new idx key val n o Hfits) as F.
  pose proof (appendKV_result_len new idx ptr key val n o Hfits) as L.
  pose proof (appendKV_result_nkeys new idx ptr key val n o Hfits) as N.
  pose proof (appendKV_result_klen new idx ptr key val n o Hfits) as Rk.
  pose proof (appendKV_result_key new idx ptr key val n o Hfits) as Rkey.
  pose proof (appendKV_result_val new idx ptr key val n o Hfits) as Rval.
  pose proof (appendKV_result_next_offset new idx ptr key val n o Hfits) as Rn.
  pose proof (appendKV_result_getOffset new idx ptr key val n o Hfits idx) as RO.
  cbv zeta in F, Rk, Rkey, Rval.
  destruct F as (Hnr & Hor & Hk & Hv & Hv' & LE & HE).
  destruct Hfits as (Hn & Hidx & Ho & Hfit & Hl & Hoff).
  split; [done|]. split; [|split; [|split]].
  - rewrite (getKey_read _ idx (4 + 10 * n + o) (len key)).
    + by rewrite Rkey.
    + apply kvPos_value; [done| |lia|lia]. rewrite RO by lia. done.
    + lia.
    + lia.
    + lia.
    + rewrite Rk. apply le_decode_encode_16. lia.
  - rewrite (getOffset_read _ n) by (done || unfold slot; lia).
    rewrite Rn. f_equal. apply le_decode_encode_16. lia.
  - exact Rval.
  - unfold stored_val, len. rewrite length_take. unfold len in Hfit. lia.
Qed.

Lemma nodeAppendKV_stores_the_bytes_that_fit_witness :
  ∃ new',
    nodeAppendKV page9 8 0 key1000 val3000 = Some new' ∧
    len new' = len page9 ∧
    getKey new' 8 = Some key1000 ∧
    getOffset new' (8 + 1) = Some (0 + 4 + len key1000 + len val3000) ∧
    read_at new' (4 + 10 * 9 + 0 + 4 + len key1000)
      (len (stored_val page9 9 0 key1000 val3000))
      = stored_val page9 9 0 key1000 val3000 ∧
    len (stored_val page9 9 0 key1000 val3000)
      = Z.min (len val3000) (len page9 - (4 + 10 * 9 + 0 + 4 + len key1000)).
Proof.
  apply (nodeAppendKV_stores_the_bytes_that_fit page9 8 0 key1000 val3000 9 0).
  unfold appendKV_fits_key.
  split; [by_compute|]. split; [lia|]. split; [by_compute|].
  split; [by_compute|]. split; by_compute.
Defined.

(** The value of the witness is cut from 3000 to 2998 bytes. *)
Example stored_val_page9 : len (stored_val page9 9 0 key1000 val3000) = 2998.
Proof. by_compute. Qed.

(** ** A key that does not fit *)

Lemma with_slice_from_None b pos f :
  len b < pos → with_slice_from b pos f = None.
Proof.
  intros Hlt. unfold with_slice_from, with_slice, slice.
  rewrite (proj2 (Z.leb_gt _ _)) by lia. done.
Qed.

Lemma with_slice_from_length b pos f b' :
  0 ≤ pos → (∀ s s', f s = Some s' → length s' = length s) →
  with_slice_from b pos f = Some b' → len b' = len b.
Proof.
  intros Hpos Hf H. unfold len. f_equal.
  by eapply with_slice_length.
Qed.

(** X11. When the key does not fit behind the four length bytes of the entry,
    [nodeAppendKV] panics: the slice for the value starts outside the
    buffer. *)
Theorem nodeAppendKV_panics_when_key_does_not_fit (new : list byte)
    (idx ptr : Z) (key val : list byte) (n o : Z) :
  nkeys new = Some n → 0 ≤ idx < n → getOffset new idx = Some o →
  4 + 10 * n ≤ len new → len new < 65536 →
  4 + 10 * n + o + 4 + len key < 65536 →
  len new < 4 + 10 * n + o + 4 + len key →
  nodeAppendKV new idx ptr key val = None.
Proof.
  intros Hn Hidx Ho Hcols Hl Hwrap Hover.
  pose proof (nkeys_range _ _ Hn) as Hnr.
  pose proof (getOffset_nonneg _ _ _ Ho) as Hor.
  pose proof (len_nonneg key) as Hk0.
  set (pos := 4 + 10 * n + o) in *.
  set (new1 := write_at new (4 + 8 * idx) (le_encode 8 ptr)).
  assert (len new1 = len new) as L1
    by (apply length_write_at; rewrite ?len_le_encode; lia).
  assert (nkeys new1 = Some n) as N1
    by (unfold new1; rewrite nkeys_write_at; rewrite ?len_le_encode;
        (done || lia)).
  assert (getOffset new1 idx = Some o) as O1.
  { unfold new1. rewrite (getOffset_write_at new n); rewrite ?len_le_encode;
      [done|done|unfold slot; lia..]. }
  unfold nodeAppendKV. rewrite (setPtr_write new idx ptr) by lia.
  cbn [mbind option_bind]. fold new1.
  rewrite (kvPos_value new1 n idx o) by (done || lia).
  cbn [mbind option_bind]. fold pos.
  destruct (with_slice_from new1 pos _) as [new2|] eqn:H2;
    [cbn [mbind option_bind]|done].
  destruct (with_slice_from new2 _ _) as [new3|] eqn:H3;
    [cbn [mbind option_bind]|done].
  destruct (with_slice_from new3 _ _) as [new4|] eqn:H4;
    [cbn [mbind option_bind]|done].
  apply with_slice_from_length in H2; [|lia|intros ? ?; apply put_le_length].
  apply with_slice_from_length in H3;
    [|apply u16_range|intros ? ?; apply put_le_length].
  apply with_slice_from_length in H4;
    [|apply u16_range|intros ? ? [= <-]; apply copy_length].
  unfold add16. rewrite (u16_small (len key)) by lia.
  rewrite (u16_small (pos + 4)) by lia.
  rewrite (u16_small (pos + 4 + len key)) by lia.
  rewrite with_slice_from_None by lia. done.
Qed.

Lemma nodeAppendKV_panics_when_key_does_not_fit_witness :
  nodeAppendKV small_leaf1 0 0 (bs "a key of twenty bytes") (bs "v") = None.
Proof.
  apply (nodeAppendKV_panics_when_key_does_not_fit small_leaf1 0 0
           (bs "a key of twenty bytes") (bs "v") 1 0).
  - by_compute.
  - lia.
  - by_compute.
  - by_compute.
  - by_compute.
  - by_compute.
  - by_compute.
Defined.

(** ** Filling a node entry by entry *)

Lemma kv_size_pos e : 4 ≤ kv_size e.
Proof. unfold kv_size. pose proof (len_nonneg e.1.2). pose proof (len_nonneg e.2). lia. Qed.

Lemma kv_total_nonneg es : 0 ≤ kv_total es.
Proof.
  induction es as [|e es IH]; simpl; [lia|]. pose proof (kv_size_pos e). lia.
Qed.

Lemma kv_total_app es1 es2 : kv_total (es1 ++ es2) = kv_total es1 + kv_total es2.
Proof. induction es1 as [|e es1 IH]; simpl; lia. Qed.

Lemma kv_total_take_S es (i : nat) e :
  es !! i = Some e → kv_total (take (S i) es) = kv_total (take i es) + kv_size e.
Proof.
  intros H. rewrite (take_S_r _ _ _ H), kv_total_app. simpl. lia.
Qed.

Lemma kv_total_take_le es (i : nat) : kv_total (take i es) ≤ kv_total es.
Proof.
  rewrite <- (take_drop i es) at 2. rewrite kv_total_app.
  pose proof (kv_total_nonneg (drop i es)). lia.
Qed.

Lemma kv_total_entry_le es (i : nat) e :
  es !! i = Some e → kv_total (take i es) + kv_size e ≤ kv_total es.
Proof.
  intros H. rewrite <- (kv_total_take_S _ _ _ H). apply kv_total_take_le.
Qed.

Lemma nodeAppendKV_filled node n pre p k v :
  filled node n pre → Z.of_nat (length pre) < n →
  4 + 10 * n + kv_total pre + kv_size (p, k, v) ≤ len node →
  len node < 65536 →
  ∃ node',
    nodeAppendKV node (Z.of_nat (length pre)) p k v = Some node' ∧
    len node' = len node ∧ btype node' = btype node ∧
    filled node' n (pre ++ [(p, k, v)]).
Proof.
  intros (Hn & Ho & Hpre) Hlt Hfit Hl.
  unfold kv_size in Hfit. cbn [fst snd] in Hfit.
  pose proof (kv_total_nonneg pre) as HT.
  pose proof (len_nonneg k). pose proof (len_nonneg v).
  set (idx := Z.of_nat (length pre)) in *.
  set (o := kv_total pre) in *.
  assert (appendKV_fits_key node idx k v n o) as Hfits
    by (unfold appendKV_fits_key; repeat split; (done || lia)).
  assert (stored_val node n o k v = v) as Hsv by (apply stored_val_all; lia).
  exists (appendKV_result node idx p k v n o).
  split; [by apply nodeAppendKV_run|].
  pose proof (appendKV_result_len node idx p k v n o Hfits) as L.
  pose proof (appendKV_result_nkeys node idx p k v n o Hfits) as N.
  pose proof (appendKV_facts node idx k v n o Hfits) as F.
  cbv zeta in F. rewrite Hsv in F.
  destruct F as (Hnr & Hor & Hk & Hv & _ & LE & HE).
  split; [done|]. split; [by apply appendKV_result_btype|].
  split; [done|]. split.
  - rewrite length_app. simpl length.
    replace (Z.of_nat (length pre + 1)) with (idx + 1) by (unfold idx; lia).
    rewrite kv_total_app. simpl. unfold kv_size. cbn [fst snd].
    rewrite (getOffset_read _ n) by (done || unfold slot; lia).
    rewrite (appendKV_result_next_offset node idx p k v n o Hfits).
    f_equal. rewrite le_decode_encode_16 by lia. fold o. lia.
  - intros i p' k' v' Hi.
    destruct (decide (i < length pre)%nat) as [Hin|Hout].
    + rewrite lookup_app_l in Hi by done.
      rewrite take_app_le by lia.
      destruct (Hpre i p' k' v' Hi) as (Rp & Re & RO).
      pose proof (kv_total_entry_le _ _ _ Hi) as Hle.
      unfold kv_size in Hle. cbn [fst snd] in Hle. fold o in Hle.
      pose proof (kv_total_nonneg (take i pre)).
      pose proof (len_nonneg k'). pose proof (len_nonneg v').
      split; [|split].
      * rewrite <- Rp.
        apply (appendKV_result_outside node idx p k v n o Hfits);
          unfold slot, idx in *; lia.
      * rewrite <- Re.
        apply (appendKV_result_outside node idx p k v n o Hfits);
          unfold slot, idx in *; lia.
      * rewrite <- RO.
        apply (appendKV_result_getOffset node idx p k v n o Hfits).
        unfold idx. lia.
    + assert (i = length pre) as ->.
      { apply lookup_lt_Some in Hi. rewrite length_app in Hi. simpl in Hi. lia. }
      rewrite lookup_app_r in Hi by lia. rewrite Nat.sub_diag in Hi.
      injection Hi as <- <- <-.
      rewrite take_app_length. fold idx o.
      split; [|split].
      * apply (appendKV_result_ptr node idx p k v n o Hfits).
      * pose proof (appendKV_result_inside node idx p k v n o Hfits
                      0 (4 + len k + len v)) as H'.
        cbv zeta in H'. rewrite Hsv, Z.add_0_r in H'. rewrite H' by lia.
        rewrite <- LE. apply read_at_all.
      * rewrite (appendKV_result_getOffset node idx p k v n o Hfits) by lia.
        done.
Qed.

Lemma appendKVs_filled n es :
  ∀ pre node,
    filled node n pre → Z.of_nat (length pre) + Z.of_nat (length es) ≤ n →
    4 + 10 * n + kv_total (pre ++ es) ≤ len node → len node < 65536 →
    ∃ node',
      appendKVs node (Z.of_nat (length pre)) es = Some node' ∧
      len node' = len node ∧ btype node' = btype node ∧
      filled node' n (pre ++ es).
Proof.
  induction es as [|[[p k] v] es IH]; intros pre node Hf Hn Hfit Hl.
  - exists node. rewrite app_nil_r. done.
  - simpl in Hn. rewrite kv_total_app in Hfit. simpl in Hfit.
    pose proof (kv_total_nonneg es).
    destruct (nodeAppendKV_filled node n pre p k v Hf) as (node1 & H1 & L1 & B1 & F1);
      [lia..|].
    cbn [appendKVs]. rewrite H1. cbn [mbind option_bind].
    destruct (IH (pre ++ [(p, k, v)]) node1 F1) as (node' & H' & L' & B' & F').
    + rewrite length_app. simpl. lia.
    + rewrite <- app_assoc. simpl. rewrite kv_total_app. simpl. lia.
    + lia.
    + exists node'. rewrite length_app in H'. simpl in H'.
      replace (Z.of_nat (length pre + 1)) with (Z.of_nat (length pre) + 1)
        in H' by lia.
      rewrite <- app_assoc in F'. simpl in F'.
      split; [done|]. split; [lia|]. split; [congruence|done].
Qed.

Lemma read_at_prefix b q a c xs ys :
  0 ≤ q → 0 ≤ c → a = len xs → q + a ≤ len b →
  read_at b q (a + c) = xs ++ ys →
  read_at b q a = xs ∧ read_at b (q + a) c = ys.
Proof.
  intros Hq Hc -> Hfit H. pose proof (len_nonneg xs).
  rewrite read_at_split in H by lia.
  apply app_inj_1 in H; [done|].
  pose proof (len_read_at b q (len xs) Hq ltac:(lia) Hfit) as Hl.
  unfold len in *. lia.
Qed.

Lemma buildNode_spec (buf : list byte) (t : Z) (es : list kv) :
  0 ≤ t < 65536 →
  4 + 10 * Z.of_nat (length es) + kv_total es ≤ len buf → len buf < 65536 →
  ∃ node,
    buildNode buf t es = Some node ∧
    len node = len buf ∧ btype node = Some t ∧
    nkeys node = Some (Z.of_nat (length es)) ∧
    nbytes node = Some (4 + 10 * Z.of_nat (length es) + kv_total es) ∧
    ∀ (i : nat) p k v, es !! i = Some (p, k, v) →
      getPtr node (Z.of_nat i) = Some (p mod 2 ^ 64) ∧
      getKey node (Z.of_nat i) = Some k ∧
      getOffset node (Z.of_nat i) = Some (kv_total (take i es)) ∧
      read_at node (4 + 10 * Z.of_nat (length es) + kv_total (take i es))
        (4 + len k + len v) = entry_bytes k v.
Proof.
  intros Ht Hfit Hl. unfold buildNode.
  remember (Z.of_nat (length es)) as n eqn:En.
  pose proof (kv_total_nonneg es) as HT.
  destruct (setHeader_spec buf t n) as (node0 & H0 & B0 & N0 & L0 & _);
    [lia..|].
  assert (filled node0 n []) as F0.
  { split; [done|]. split; [done|]. intros i p k v Hi. by destruct i. }
  destruct (appendKVs_filled n es [] node0 F0) as (node & H & L & B & F).
  { simpl. lia. }
  { simpl. lia. }
  { lia. }
  exists node. simpl in H, F. destruct F as (N & O & Fe).
  split; [rewrite H0; exact H|].
  split; [lia|]. split; [congruence|]. split; [done|]. split.
  - rewrite <- En in O.
    unfold nbytes. rewrite N. cbn [mbind option_bind].
    rewrite (kvPos_mod node n n (kv_total es) N O).
    f_equal. apply Z.mod_small. lia.
  - intros i p k v Hi. destruct (Fe i p k v Hi) as (Rp & Re & RO).
    pose proof (lookup_lt_Some _ _ _ Hi) as Hilt.
    pose proof (kv_total_entry_le _ _ _ Hi) as Hle.
    unfold kv_size in Hle. cbn [fst snd] in Hle.
    pose proof (kv_total_nonneg (take i es)).
    pose proof (len_nonneg k). pose proof (len_nonneg v).
    assert (kvPos node (Z.of_nat i)
            = Some (4 + 10 * n + kv_total (take i es))) as Hpos
      by (apply kvPos_value; (done || lia)).
    remember (4 + 10 * n + kv_total (take i es)) as pos eqn:Epos.
    pose proof Re as Re'. unfold entry_bytes in Re.
    destruct (read_at_prefix node pos 2 (2 + len k + len v)
                (le_encode 2 (len k))
                (le_encode 2 (len v) ++ k ++ v)) as [Rk Rrest];
      [lia|lia|by rewrite len_le_encode|lia| |].
    { rewrite <- Re. f_equal. lia. }
    destruct (read_at_prefix node (pos + 2) 2 (len k + len v)
                (le_encode 2 (len v)) (k ++ v)) as [Rv Rkv];
      [lia|lia|by rewrite len_le_encode|lia| |].
    { rewrite <- Rrest. f_equal. lia. }
    destruct (read_at_prefix node (pos + 2 + 2) (len k) (len v) k v)
      as [Rkey Rval]; [lia|lia|done|lia|done|].
    split; [|split; [|split; [done|done]]].
    + rewrite getPtr_read by lia.
      rewrite Rp, le_decode_encode. done.
    + rewrite (getKey_read node (Z.of_nat i) pos (len k)); try (done || lia).
      * f_equal. rewrite <- Rkey at 2. f_equal. lia.
      * rewrite Rk. apply le_decode_encode_16. lia.
Qed.

(** X13. A node filled in order reads back.  When [4 + 10*n + the sizes of
    the n entries] fits a buffer shorter than 2^16, [setHeader] followed by
    [nodeAppendKV] for the indices 0, 1, ..., n-1 returns a node of the same
    length with that type and key count, whose [nbytes] is exactly that sum,
    and where for every entry the pointer and the key read back, the running
    offset is the sum of the sizes before it, and the buffer holds klen,
    vlen, key and value at the entry's position. *)
Theorem buildNode_reads_back (buf : list byte) (t : Z) (es : list kv) :
  0 ≤ t < 65536 →
  4 + 10 * Z.of_nat (length es) + kv_total es ≤ len buf → len buf < 65536 →
  (∀ (i : nat) p k v, es !! i = Some (p, k, v) → 0 ≤ p < 2 ^ 64) →
  ∃ node,
    buildNode buf t es = Some node ∧
    len node = len buf ∧ btype node = Some t ∧
    nkeys node = Some (Z.of_nat (length es)) ∧
    nbytes node = Some (4 + 10 * Z.of_nat (length es) + kv_total es) ∧
    ∀ (i : nat) p k v, es !! i = Some (p, k, v) →
      getPtr node (Z.of_nat i) = Some p ∧
      getKey node (Z.of_nat i) = Some k ∧
      getOffset node (Z.of_nat i) = Some (kv_total (take i es)) ∧
      read_at node (4 + 10 * Z.of_nat (length es) + kv_total (take i es))
        (4 + len k + len v) = entry_bytes k v.
Proof.
  intros Ht Hfit Hl Hptr.
  destruct (buildNode_spec buf t es Ht Hfit Hl)
    as (node & Hrun & L & B & N & Nb & He).
  exists node. repeat (split; [done|]).
  intros i p k v Hi. destruct (He i p k v Hi) as (Hp & Hk & Ho & Hb).
  rewrite Z.mod_small in Hp by (by eapply Hptr). done.
Qed.

Lemma buildNode_reads_back_witness :
  ∃ node,
    buildNode page BNODE_LEAF_TYPE kvs3 = Some node ∧
    len node = len page ∧ btype node = Some BNODE_LEAF_TYPE ∧
    nkeys node = Some (Z.of_nat (length kvs3)) ∧
    nbytes node = Some (4 + 10 * Z.of_nat (length kvs3) + kv_total kvs3) ∧
    ∀ (i : nat) p k v, kvs3 !! i = Some (p, k, v) →
      getPtr node (Z.of_nat i) = Some p ∧
      getKey node (Z.of_nat i) = Some k ∧
      getOffset node (Z.of_nat i) = Some (kv_total (take i kvs3)) ∧
      read_at node (4 + 10 * Z.of_nat (length kvs3) + kv_total (take i kvs3))
        (4 + len k + len v) = entry_bytes k v.
Proof.
  apply (buildNode_reads_back page BNODE_LEAF_TYPE kvs3).
  - unfold BNODE_LEAF_TYPE. lia.
  - by_compute.
  - by_compute.
  - intros i p k v Hi.
    destruct i as [|[|[|i]]]; simpl in Hi; try discriminate;
      injection Hi as <- _ _; lia.
Defined.

(** * Further properties of the lookups *)

Lemma bytes_Compare_refl a : bytes_Compare a a = 0.
Proof. by apply bytes_Compare_eq. Qed.

Lemma bytes_Compare_le_trans a b c :
  bytes_Compare a b ≤ 0 → bytes_Compare b c ≤ 0 → bytes_Compare a c ≤ 0.
Proof.
  intros Hab Hbc.
  destruct (decide (bytes_Compare a b = 0)) as [E|Hne].
  { apply bytes_Compare_eq in E. by subst. }
  destruct (decide (bytes_Compare b c = 0)) as [E|Hne'].
  { apply bytes_Compare_eq in E. by subst. }
  pose proof (bytes_Compare_trans a b c ltac:(lia) ltac:(lia)). lia.
Qed.

Lemma nodeLookupLE_bounds (node key : list byte) (n : Z) :
  nkeys node = Some n → keys_readable node n → keys_ascending node n →
  ∃ r, nodeLookupLE node key = Some r ∧ 0 ≤ r < Z.max n 1 ∧
    (∀ j kj, 1 ≤ j ≤ r → getKey node j = Some kj → bytes_Compare kj key ≤ 0) ∧
    (∀ j kj, r < j < n → getKey node j = Some kj → bytes_Compare kj key > 0).
Proof.
  intros Hn Hread Hasc. unfold nodeLookupLE. rewrite Hn. simpl.
  pose proof (nkeys_range _ _ Hn) as Hrange.
  destruct (nodeLookupLE_loop_spec node key n ltac:(lia) Hread Hasc
              (Z.to_nat (n - 1)) 1 ltac:(lia) ltac:(lia))
    as (r & Hr & Hb & Hle & Hgt).
  { intros j kj Hj. lia. }
  exists r. split; [exact Hr|]. split; [lia|]. split; assumption.
Qed.

Lemma lookup_stored_key (node key : list byte) (n i : Z) :
  nkeys node = Some n → keys_readable node n → keys_ascending node n →
  1 ≤ i < n → getKey node i = Some key →
  nodeLookupEQ node key = Some i ∧ nodeLookupLE node key = Some i.
Proof.
  intros Hn Hread Hasc Hi Hkey.
  pose proof (nkeys_range _ _ Hn) as Hrange. split.
  - unfold nodeLookupEQ. rewrite Hn. simpl.
    destruct (nodeLookupEQ_loop_spec node key n ltac:(lia) Hread
                (Z.to_nat (n - 1)) 1 ltac:(lia) ltac:(lia))
      as (r & Hr & Hcase).
    rewrite Hr. f_equal.
    destruct Hcase as [[-> Hnone]|(Hin & Hrk & Hfirst)].
    + destruct (Hnone i ltac:(lia) Hkey).
    + destruct (Z.lt_trichotomy r i) as [Hlt|[->|Hgt]]; [|done|].
      * pose proof (Hasc r i key key ltac:(lia) Hlt ltac:(lia) Hrk Hkey) as Hc.
        rewrite bytes_Compare_refl in Hc. lia.
      * destruct (Hfirst i ltac:(lia) Hkey).
  - destruct (nodeLookupLE_bounds node key n Hn Hread Hasc)
      as (r & Hr & Hb & Hle & Hgt).
    rewrite Hr. f_equal.
    destruct (Z.lt_trichotomy r i) as [Hlt|[->|Hgt']]; [|done|].
    + pose proof (Hgt i key ltac:(lia) Hkey) as Hc.
      rewrite bytes_Compare_refl in Hc. lia.
    + destruct (Hread r ltac:(lia)) as [kr Hkr].
      pose proof (Hle r kr ltac:(lia) Hkr) as H1.
      pose proof (Hasc i r key kr ltac:(lia) Hgt' ltac:(lia) Hkey Hkr) as H2.
      rewrite (bytes_Compare_antisym key kr) in H1. lia.
Qed.

(** X14. On a node whose keys at 1 .. nkeys-1 are readable and strictly
    ascending, a key stored at an index [i >= 1] is found at [i] by
    [nodeLookupEQ] and by [nodeLookupLE]. *)
Theorem lookup_finds_stored_key (node key : list byte) (n i : Z) :
  nkeys node = Some n → keys_readable node n → keys_ascending node n →
  1 ≤ i < n → getKey node i = Some key →
  nodeLookupEQ node key = Some i ∧ nodeLookupLE node key = Some i.
Proof. apply lookup_stored_key. Qed.

Lemma node_bdf_readable : keys_readable node_bdf 3.
Proof.
  intros i Hi. assert (i = 1 ∨ i = 2) as [-> | ->] by lia;
    eexists; vm_compute; reflexivity.
Defined.

Lemma node_bdf_ascending : keys_ascending node_bdf 3.
Proof.
  intros i j ki kj H1 H2 H3 Hi Hj.
  assert (i = 1) as -> by lia. assert (j = 2) as -> by lia.
  vm_compute in Hi, Hj. injection Hi as <-. injection Hj as <-.
  vm_compute. reflexivity.
Defined.

Lemma lookup_finds_stored_key_witness :
  nodeLookupEQ node_bdf (bs "f") = Some 2 ∧
  nodeLookupLE node_bdf (bs "f") = Some 2.
Proof.
  apply (lookup_finds_stored_key node_bdf (bs "f") 3 2).
  - by_compute.
  - exact node_bdf_readable.
  - exact node_bdf_ascending.
  - lia.
  - by_compute.
Defined.

(** X15. On such a node [nodeLookupLE] is monotone in the search key: a
    search key that compares less or equal gets an index that is less or
    equal. *)
Theorem nodeLookupLE_monotone (node k1 k2 : list byte) (n : Z) :
  nkeys node = Some n → keys_readable node n → keys_ascending node n →
  bytes_Compare k1 k2 ≤ 0 →
  ∃ r1 r2,
    nodeLookupLE node k1 = Some r1 ∧ nodeLookupLE node k2 = Some r2 ∧ r1 ≤ r2.
Proof.
  intros Hn Hread Hasc Hk.
  destruct (nodeLookupLE_bounds node k1 n Hn Hread Hasc)
    as (r1 & Hr1 & Hb1 & Hle1 & Hgt1).
  destruct (nodeLookupLE_bounds node k2 n Hn Hread Hasc)
    as (r2 & Hr2 & Hb2 & Hle2 & Hgt2).
  exists r1, r2. split; [done|]. split; [done|].
  destruct (Z.le_gt_cases r1 r2) as [|Hgt]; [done|].
  destruct (Hread r1 ltac:(lia)) as [kr Hkr].
  pose proof (Hle1 r1 kr ltac:(lia) Hkr) as H1.
  pose proof (Hgt2 r1 kr ltac:(lia) Hkr) as H2.
  pose proof (bytes_Compare_le_trans _ _ _ H1 Hk). lia.
Qed.

Lemma nodeLookupLE_monotone_witness :
  ∃ r1 r2,
    nodeLookupLE node_bdf (bs "c") = Some r1 ∧
    nodeLookupLE node_bdf (bs "e") = Some r2 ∧ r1 ≤ r2.
Proof.
  apply (nodeLookupLE_monotone node_bdf (bs "c") (bs "e") 3).
  - by_compute.
  - exact node_bdf_readable.
  - exact node_bdf_ascending.
  - by_compute.
Defined.

(** X16. Filling and searching compose: in a node filled in order with
    entries whose keys are strictly ascending, the key of every entry at an
    index [i >= 1] is found at [i] by both scans, and the key of entry 0 is
    reported as 0 by [nodeLookupEQ]. *)
Theorem buildNode_then_lookup (buf : list byte) (t : Z) (es : list kv) :
  0 ≤ t < 65536 →
  4 + 10 * Z.of_nat (length es) + kv_total es ≤ len buf → len buf < 65536 →
  kvs_ascending es →
  ∃ node,
    buildNode buf t es = Some node ∧
    (∀ (i : nat) p k v, (1 ≤ i)%nat → es !! i = Some (p, k, v) →
       nodeLookupEQ node k = Some (Z.of_nat i) ∧
       nodeLookupLE node k = Some (Z.of_nat i)) ∧
    (∀ p k v, es !! 0%nat = Some (p, k, v) → nodeLookupEQ node k = Some 0).
Proof.
  intros Ht Hfit Hl Hasc. pose proof (kv_total_nonneg es) as HT.
  destruct (buildNode_spec buf t es Ht Hfit Hl)
    as (node & Hrun & L & B & N & Nb & He).
  exists node. split; [done|].
  assert (∀ i, 0 ≤ i < Z.of_nat (length es) →
            ∃ p k v, es !! Z.to_nat i = Some (p, k, v)
                     ∧ getKey node i = Some k) as Hget.
  { intros i Hi.
    destruct (lookup_lt_is_Some_2 es (Z.to_nat i) ltac:(lia)) as [[[p k] v] Hes].
    exists p, k, v. split; [done|].
    destruct (He _ _ _ _ Hes) as (_ & Hk & _).
    by rewrite Z2Nat.id in Hk by lia. }
  assert (keys_readable node (Z.of_nat (length es))) as Hread.
  { intros i Hi. destruct (Hget i ltac:(lia)) as (p & k & v & _ & Hk). eauto. }
  assert (keys_ascending node (Z.of_nat (length es))) as Hasc'.
  { intros i j ki kj H1 H2 H3 Hi Hj.
    destruct (Hget i ltac:(lia)) as (pi & ki' & vi & Hei & Hki).
    destruct (Hget j ltac:(lia)) as (pj & kj' & vj & Hej & Hkj).
    assert (ki' = ki) as -> by congruence.
    assert (kj' = kj) as -> by congruence.
    apply (Hasc (Z.to_nat i) (Z.to_nat j) pi ki vi pj kj vj); [lia|done|done]. }
  split.
  - intros i p k v Hi Hes.
    pose proof (lookup_lt_Some _ _ _ Hes) as Hlt.
    destruct (He _ _ _ _ Hes) as (_ & Hk & _).
    apply (lookup_stored_key node k (Z.of_nat (length es)) (Z.of_nat i));
      (done || lia).
  - intros p k v Hes.
    unfold nodeLookupEQ. rewrite N. simpl.
    pose proof (lookup_lt_Some _ _ _ Hes) as Hlt.
    destruct (nodeLookupEQ_loop_spec node k (Z.of_nat (length es)) ltac:(lia)
                Hread (Z.to_nat (Z.of_nat (length es) - 1)) 1
                ltac:(lia) ltac:(lia)) as (r & Hr & Hcase).
    rewrite Hr. f_equal.
    destruct Hcase as [[-> _]|(Hin & Hrk & _)]; [done|].
    destruct (Hget r ltac:(lia)) as (pr & kr & vr & Her & Hkr).
    assert (kr = k) as -> by congruence.
    pose proof (Hasc 0%nat (Z.to_nat r) p k v pr k vr ltac:(lia) Hes Her) as Hc.
    rewrite bytes_Compare_refl in Hc. lia.
Qed.

Lemma kvs3_ascending : kvs_ascending kvs3.
Proof.
  intros i j pi ki vi pj kj vj Hij Hi Hj.
  destruct i as [|[|[|i]]]; destruct j as [|[|[|j]]];
    simpl in Hi, Hj; try discriminate; try lia;
    injection Hi as <- <- <-; injection Hj as <- <- <-;
    vm_compute; reflexivity.
Defined.

Lemma buildNode_then_lookup_witness :
  ∃ node,
    buildNode page BNODE_LEAF_TYPE kvs3 = Some node ∧
    (∀ (i : nat) p k v, (1 ≤ i)%nat → kvs3 !! i = Some (p, k, v) →
       nodeLookupEQ node k = Some (Z.of_nat i) ∧
       nodeLookupLE node k = Some (Z.of_nat i)) ∧
    (∀ p k v, kvs3 !! 0%nat = Some (p, k, v) → nodeLookupEQ node k = Some 0).
Proof.
  apply (buildNode_then_lookup page BNODE_LEAF_TYPE kvs3).
  - unfold BNODE_LEAF_TYPE. lia.
  - by_compute.
  - by_compute.
  - exact kvs3_ascending.
Defined.

(** * Further properties of [nodeAppendRange] and [leafInsert] *)

Lemma read_at_0 b pos : read_at b pos 0 = [].
Proof. unfold read_at. by rewrite take_0. Qed.

Lemma nodeAppendRange_empty (h : heap) new old dstNew srcOld
    (bn bo : list byte) (pn po : Z) :
  h !! new = Some bn → h !! old = Some bo →
  kvPos bn srcOld = Some pn → kvPos bo dstNew = Some po →
  pn ≤ len bn → po ≤ len bo → len bn < 65536 → len bo < 65536 →
  nodeAppendRange h new old dstNew srcOld 0 = Some h.
Proof.
  intros Hbn Hbo Hpn Hpo Hfn Hfo Hln Hlo.
  pose proof (kvPos_range _ _ _ Hpn).
  rewrite (nodeAppendRange_moves_bytes h new old dstNew srcOld 0 bn bo pn po)
    by (done || lia).
  rewrite read_at_0, write_at_nil by lia. f_equal. by apply insert_id.
Qed.

(** X17. Copying an empty range changes nothing: when both positions lie
    inside their buffers, [nodeAppendRange] with [n = 0] returns the heap as
    it was. *)
Theorem nodeAppendRange_of_no_bytes (h : heap) (new old : loc)
    (dstNew srcOld : Z) (bn bo : list byte) (pn po : Z) :
  h !! new = Some bn → h !! old = Some bo →
  kvPos bn srcOld = Some pn → kvPos bo dstNew = Some po →
  pn ≤ len bn → po ≤ len bo → len bn < 65536 → len bo < 65536 →
  nodeAppendRange h new old dstNew srcOld 0 = Some h.
Proof. apply nodeAppendRange_empty. Qed.

Lemma nodeAppendRange_of_no_bytes_witness :
  nodeAppendRange heap_range 0%nat 1%nat 2 1 0 = Some heap_range.
Proof.
  apply (nodeAppendRange_of_no_bytes heap_range 0%nat 1%nat 2 1
           node_bdf node8 40 96); by_compute.
Defined.

(** X18. [nodeAppendRange] writes into the key-value area only: in range it
    keeps the length, the node type, the key count, every pointer and every
    offset of the destination, and the [n] bytes at the destination position
    are those of the source. *)
Theorem nodeAppendRange_keeps_pointers_and_offsets (h : heap) (new old : loc)
    (dstNew srcOld n : Z) (bn bo : list byte) (m o po : Z) :
  h !! new = Some bn → h !! old = Some bo →
  nkeys bn = Some m → getOffset bn srcOld = Some o →
  kvPos bo dstNew = Some po →
  0 ≤ n → 4 + 10 * m + o + n ≤ len bn → po + n ≤ len bo →
  len bn < 65536 → len bo < 65536 →
  ∃ b',
    nodeAppendRange h new old dstNew srcOld n = Some (<[new := b']> h) ∧
    len b' = len bn ∧ btype b' = btype bn ∧ nkeys b' = Some m ∧
    (∀ i, 0 ≤ i < m → getPtr b' i = getPtr bn i) ∧
    (∀ i, 0 ≤ i ≤ m → getOffset b' i = getOffset bn i) ∧
    read_at b' (4 + 10 * m + o) n = read_at bo po n.
Proof.
  intros Hbn Hbo Hm Ho Hpo Hn Hfn Hfo Hln Hlo.
  pose proof (nkeys_range _ _ Hm) as Hmr.
  pose proof (getOffset_nonneg _ _ _ Ho) as Hor.
  pose proof (kvPos_range _ _ _ Hpo) as Hpor.
  assert (kvPos bn srcOld = Some (4 + 10 * m + o)) as Hpn
    by (apply kvPos_value; (done || lia)).
  set (src := read_at bo po n).
  assert (len src = n) as Ls by (apply len_read_at; lia).
  exists (write_at bn (4 + 10 * m + o) src).
  split.
  { apply (nodeAppendRange_moves_bytes h new old dstNew srcOld n bn bo);
      (done || lia). }
  split; [apply length_write_at; lia|].
  split; [apply btype_write_at; lia|].
  split; [rewrite nkeys_write_at; (done || lia)|].
  split; [|split].
  - intros i Hi.
    rewrite !getPtr_read by (rewrite ?length_write_at; lia).
    rewrite read_write_other by lia. done.
  - intros i Hi. apply (getOffset_write_at bn m); try (done || lia);
      unfold slot; lia.
  - apply read_write_same_len; lia.
Qed.

Lemma nodeAppendRange_keeps_pointers_and_offsets_witness :
  ∃ b',
    nodeAppendRange heap_range 0%nat 1%nat 0 1 6
      = Some (<[0%nat := b']> heap_range) ∧
    len b' = len node_bdf ∧ btype b' = btype node_bdf ∧ nkeys b' = Some 3 ∧
    (∀ i, 0 ≤ i < 3 → getPtr b' i = getPtr node_bdf i) ∧
    (∀ i, 0 ≤ i ≤ 3 → getOffset b' i = getOffset node_bdf i) ∧
    read_at b' (4 + 10 * 3 + 6) 6 = read_at node8 84 6.
Proof.
  apply (nodeAppendRange_keeps_pointers_and_offsets heap_range 0%nat 1%nat 0 1 6
           node_bdf node8 3 6 84); by_compute.
Defined.

Lemma appendKV_result_accessors new idx ptr key val n o :
  appendKV_fits_key new idx key val n o →
  getPtr (appendKV_result new idx ptr key val n o) idx = Some (ptr mod 2 ^ 64) ∧
  getKey (appendKV_result new idx ptr key val n o) idx = Some key ∧
  getOffset (appendKV_result new idx ptr key val n o) (idx + 1)
    = Some (o + 4 + len key + len val).
Proof.
  intros Hfits.
  pose proof (appendKV_facts new idx key val n o Hfits) as F.
  pose proof (appendKV_result_len new idx ptr key val n o Hfits) as L.
  pose proof (appendKV_result_nkeys new idx ptr key val n o Hfits) as N.
  pose proof (appendKV_result_ptr new idx ptr key val n o Hfits) as Rp.
  pose proof (appendKV_result_klen new idx ptr key val n o Hfits) as Rk.
  pose proof (appendKV_result_key new idx ptr key val n o Hfits) as Rkey.
  pose proof (appendKV_result_next_offset new idx ptr key val n o Hfits) as Rn.
  pose proof (appendKV_result_getOffset new idx ptr key val n o Hfits idx) as RO.
  cbv zeta in F, Rk, Rkey.
  destruct F as (Hnr & Hor & Hk & Hv & Hv' & LE & HE).
  destruct Hfits as (Hn & Hidx & Ho & Hfit & Hl & Hoff).
  split; [|split].
  - rewrite getPtr_read by lia. rewrite Rp, le_decode_encode. done.
  - rewrite (getKey_read _ idx (4 + 10 * n + o) (len key)).
    + by rewrite Rkey.
    + apply kvPos_value; [done| |lia|lia]. rewrite RO by lia. done.
    + lia.
    + lia.
    + lia.
    + rewrite Rk. apply le_decode_encode_16. lia.
  - rewrite (getOffset_read _ n) by (done || unfold slot; lia).
    rewrite Rn. f_equal. apply le_decode_encode_16. lia.
Qed.

(** X19. The first insert works: for a source without keys whose buffer
    holds at least 6 bytes (bytes 4 and 5 are read as an offset and must
    point inside it) and a distinct destination with room for the entry,
    [leafInsert] at index 0 returns and touches the destination only, which
    becomes a leaf with one key: zero pointer, the key reads back, and
    [nbytes] is [18 + len key + len val]. *)
Theorem leafInsert_into_empty_leaf (h : heap) (new old : loc)
    (key val bn bo : list byte) :
  new ≠ old → h !! new = Some bn → h !! old = Some bo →
  nkeys bo = Some 0 → 6 ≤ len bo → len bo < 65536 →
  4 + le_decode (read_at bo 4 2) ≤ len bo →
  18 + len key + len val ≤ len bn → len bn < 65536 →
  ∃ b',
    leafInsert h new old 0 key val = Some (<[new := b']> h) ∧
    len b' = len bn ∧
    btype b' = Some BNODE_LEAF_TYPE ∧ nkeys b' = Some 1 ∧
    getPtr b' 0 = Some 0 ∧ getKey b' 0 = Some key ∧
    nbytes b' = Some (18 + len key + len val).
Proof.
  intros Hne Hbn Hbo Hn0 Hlo6 Hlo Hs Hfit Hln.
  pose proof (len_nonneg key) as Hk0. pose proof (len_nonneg val) as Hv0.
  pose proof (le_decode_range (read_at bo 4 2)) as Hsr.
  destruct (setHeader_spec bn BNODE_LEAF_TYPE 1) as (b1 & H1 & B1 & N1 & L1 & _);
    [lia|unfold BNODE_LEAF_TYPE; lia|lia|].
  assert (appendKV_fits_key b1 0 key val 1 0) as Hfits
    by (unfold appendKV_fits_key; repeat split; (done || lia)).
  set (b3 := appendKV_result b1 0 0 key val 1 0).
  pose proof (appendKV_result_len b1 0 0 key val 1 0 Hfits) as L3.
  pose proof (appendKV_result_nkeys b1 0 0 key val 1 0 Hfits) as N3.
  pose proof (appendKV_result_btype b1 0 0 key val 1 0 Hfits) as B3.
  destruct (appendKV_result_accessors b1 0 0 key val 1 0 Hfits)
    as (P3 & K3 & O3).
  fold b3 in L3, N3, B3, P3, K3, O3.
  assert (kvPos bo 0 = Some 4) as Hpo0
    by (apply (kvPos_value bo 0 0 0); (done || lia)).
  assert (kvPos bo 1 = Some (4 + le_decode (read_at bo 4 2))) as Hpo1.
  { apply (kvPos_value bo 0 1); [done| |lia|lia].
    apply (getOffset_read bo 0 1); unfold slot; (done || lia). }
  exists b3. split.
  - assert (update h new (λ b, setHeader b BNODE_LEAF_TYPE 1)
            = Some (<[new := b1]> h)) as U1.
    { unfold update. rewrite Hbn. cbn [mbind option_bind]. by rewrite H1. }
    assert (update (<[new := b1]> h) new (λ b, nodeAppendKV b 0 0 key val)
            = Some (<[new := b3]> h)) as U3.
    { unfold update. rewrite lookup_insert_eq. cbn [mbind option_bind].
      rewrite (nodeAppendKV_run b1 0 0 key val 1 0 Hfits).
      cbn [mbind option_bind]. fold b3. by rewrite insert_insert_eq. }
    unfold leafInsert, read. rewrite Hbo. cbn [mbind option_bind].
    rewrite Hn0. cbn [mbind option_bind].
    change (add16 0 1) with 1. rewrite U1. cbn [mbind option_bind].
    rewrite (nodeAppendRange_empty _ new old 0 0 b1 bo 14 4);
      [ |by rewrite lookup_insert_eq|by rewrite lookup_insert_ne
        |apply (kvPos_value b1 1 0 0); (done || lia)|done|lia..].
    cbn [mbind option_bind]. rewrite U3. cbn [mbind option_bind].
    rewrite lookup_insert_ne by done.
    rewrite Hbo. cbn [mbind option_bind]. rewrite Hn0.
    cbn [mbind option_bind]. change (sub16 0 0) with 0.
    apply (nodeAppendRange_empty _ new old 1 0 b3 bo 14
             (4 + le_decode (read_at bo 4 2)));
      [by rewrite lookup_insert_eq|by rewrite lookup_insert_ne
      |apply (kvPos_value b3 1 0 0); (done || lia)|done|lia..].
  - split; [lia|]. split; [congruence|]. split; [done|].
    split; [by rewrite P3|]. split; [done|].
    unfold nbytes. rewrite N3. cbn [mbind option_bind].
    rewrite (kvPos_mod b3 1 1 (0 + 4 + len key + len val) N3 O3).
    f_equal. rewrite Z.mod_small by lia. lia.
Qed.

Lemma leafInsert_into_empty_leaf_witness :
  ∃ b',
    leafInsert {[ 0%nat := page; 1%nat := page ]} 0%nat 1%nat 0
      (bs "k") (bs "value")
      = Some (<[0%nat := b']> {[ 0%nat := page; 1%nat := page ]}) ∧
    len b' = len page ∧
    btype b' = Some BNODE_LEAF_TYPE ∧ nkeys b' = Some 1 ∧
    getPtr b' 0 = Some 0 ∧ getKey b' 0 = Some (bs "k") ∧
    nbytes b' = Some (18 + len (bs "k") + len (bs "value")).
Proof.
  apply (leafInsert_into_empty_leaf {[ 0%nat := page; 1%nat := page ]}
           0%nat 1%nat (bs "k") (bs "value") page page).
  - lia.
  - by_compute.
  - by_compute.
  - by_compute.
  - by_compute.
  - by_compute.
  - by_compute.
  - by_compute.
  - by_compute.
Defined.

Lemma kvPos_1_short_empty bo :
  nkeys bo = Some 0 → len bo < 6 → kvPos bo 1 = None.
Proof.
  intros Hn Hl. unfold kvPos. rewrite Hn. cbn [mbind option_bind].
  unfold getOffset. change (1 =? 0) with false. cbv iota.
  rewrite (offsetIdx_slot bo 0 1) by (done || unfold slot; lia).
  cbn [mbind option_bind]. change (slot 0 1) with 4.
  pose proof (slice_from_get_le_None bo 4 2 ltac:(lia) ltac:(lia)) as E.
  pose proof (E : (s ← slice_from bo 4; Uint16 s) = None) as E'.
  rewrite E'. done.
Qed.

(** X20. [leafInsert] panics on a source without keys whose buffer is shorter
    than 6 bytes (a header-only buffer): the closing [nodeAppendRange] reads
    the offset of entry [idx+1] of the source, two bytes behind its header. *)
Theorem leafInsert_panics_on_header_only_source (h : heap) (new old : loc)
    (key val bo : list byte) :
  new ≠ old → h !! old = Some bo → nkeys bo = Some 0 → len bo < 6 →
  leafInsert h new old 0 key val = None.
Proof.
  intros Hne Hbo Hn0 Hl.
  assert (read h old nkeys = Some 0) as R0
    by (unfold read; rewrite Hbo; done).
  unfold leafInsert. rewrite R0. cbn [mbind option_bind].
  destruct (update h new _) as [h1|] eqn:H1; [cbn [mbind option_bind]|done].
  destruct (nodeAppendRange h1 new old 0 0 0) as [h2|] eqn:H2;
    [cbn [mbind option_bind]|done].
  destruct (update h2 new _) as [h3|] eqn:H3; [cbn [mbind option_bind]|done].
  assert (h3 !! old = Some bo) as Hbo3.
  { rewrite (update_frame _ _ _ _ _ H3) by congruence.
    rewrite (nodeAppendRange_frame _ _ _ _ _ _ _ _ H2) by congruence.
    rewrite (update_frame _ _ _ _ _ H1) by congruence. done. }
  assert (read h3 old nkeys = Some 0) as R3
    by (unfold read; rewrite Hbo3; done).
  rewrite R3. cbn [mbind option_bind]. change (add16 0 1) with 1.
  unfold nodeAppendRange.
  assert (read h3 old (λ b, kvPos b 1) = None) as RN
    by (unfold read; rewrite Hbo3; apply (kvPos_1_short_empty bo Hn0 Hl)).
  rewrite RN. by destruct (read h3 new _).
Qed.

Lemma leafInsert_panics_on_header_only_source_witness :
  leafInsert {[ 0%nat := page; 1%nat := take 4 page ]} 0%nat 1%nat 0
    (bs "k") (bs "value") = None.
Proof.
  apply (leafInsert_panics_on_header_only_source
           {[ 0%nat := page; 1%nat := take 4 page ]} 0%nat 1%nat
           (bs "k") (bs "value") (take 4 page)).
  - lia.
  - by_compute.
  - by_compute.
  - by_compute.
Defined.

(** * Where the scans stop *)

Lemma nodeLookupLE_skip_prefix (node key : list byte) (n i : Z) :
  nkeys node = Some n → 1 ≤ i ≤ Z.max n 1 →
  (∀ j, 1 ≤ j < i →
     ∃ kj, getKey node j = Some kj ∧ bytes_Compare kj key < 0) →
  nodeLookupLE node key
  = nodeLookupLE_loop node key (Z.to_nat (n - i)) i (i - 1).
Proof.
  intros Hn Hi Hpre. pose proof (nkeys_range _ _ Hn) as Hnr.
  unfold nodeLookupLE. rewrite Hn. cbn [mbind option_bind].
  assert (∀ (m : nat) j, 1 ≤ j → j + Z.of_nat m = i →
            nodeLookupLE_loop node key (Z.to_nat (n - j)) j (j - 1)
            = nodeLookupLE_loop node key (Z.to_nat (n - i)) i (i - 1)) as Hgen.
  { induction m as [|m IH]; intros j Hj Hm.
    - replace j with i by lia. done.
    - replace (Z.to_nat (n - j)) with (S (Z.to_nat (n - (j + 1)))) by lia.
      cbn [nodeLookupLE_loop].
      destruct (Hpre j ltac:(lia)) as (kj & -> & Hlt).
      cbn [mbind option_bind].
      destruct (Z.geb_spec (bytes_Compare kj key) 0); [lia|].
      destruct (Z.leb_spec (bytes_Compare kj key) 0); [|lia].
      unfold add16. rewrite u16_small by lia.
      rewrite <- (IH (j + 1)) by lia. do 2 f_equal. lia. }
  apply (Hgen (Z.to_nat (i - 1)) 1); lia.
Qed.

Lemma nodeLookupEQ_skip_prefix (node key : list byte) (n i : Z) :
  nkeys node = Some n → 1 ≤ i ≤ Z.max n 1 →
  (∀ j, 1 ≤ j < i → ∃ kj, getKey node j = Some kj ∧ kj ≠ key) →
  nodeLookupEQ node key = nodeLookupEQ_loop node key (Z.to_nat (n - i)) i.
Proof.
  intros Hn Hi Hpre. pose proof (nkeys_range _ _ Hn) as Hnr.
  unfold nodeLookupEQ. rewrite Hn. cbn [mbind option_bind].
  assert (∀ (m : nat) j, 1 ≤ j → j + Z.of_nat m = i →
            nodeLookupEQ_loop node key (Z.to_nat (n - j)) j
            = nodeLookupEQ_loop node key (Z.to_nat (n - i)) i) as Hgen.
  { induction m as [|m IH]; intros j Hj Hm.
    - replace j with i by lia. done.
    - replace (Z.to_nat (n - j)) with (S (Z.to_nat (n - (j + 1)))) by lia.
      cbn [nodeLookupEQ_loop].
      destruct (Hpre j ltac:(lia)) as (kj & -> & Hne).
      cbn [mbind option_bind]. unfold bytes_Equal.
      rewrite bool_decide_eq_false_2 by done.
      unfold add16. rewrite u16_small by lia.
      apply IH; lia. }
  apply (Hgen (Z.to_nat (i - 1)) 1); lia.
Qed.

(** X21. [nodeLookupLE] stops at the first key that compares greater or
    equal and reads no key behind it: if the keys at 1 .. i-1 compare less
    than the search key and the key at [i] does not, the result is [i] when
    that key is equal and [i-1] otherwise, whatever lies behind [i]. *)
Theorem nodeLookupLE_stops_at_first_ge (node key k : list byte) (n i : Z) :
  nkeys node = Some n → 1 ≤ i < n →
  (∀ j, 1 ≤ j < i →
     ∃ kj, getKey node j = Some kj ∧ bytes_Compare kj key < 0) →
  getKey node i = Some k → 0 ≤ bytes_Compare k key →
  nodeLookupLE node key = Some (if bytes_Compare k key =? 0 then i else i - 1).
Proof.
  intros Hn Hi Hpre Hk Hge.
  rewrite (nodeLookupLE_skip_prefix node key n i Hn ltac:(lia) Hpre).
  replace (Z.to_nat (n - i)) with (S (Z.to_nat (n - (i + 1)))) by lia.
  cbn [nodeLookupLE_loop]. rewrite Hk. cbn [mbind option_bind].
  destruct (Z.geb_spec (bytes_Compare k key) 0); [|lia].
  destruct (Z.eqb_spec (bytes_Compare k key) 0) as [E|E];
    destruct (Z.leb_spec (bytes_Compare k key) 0); (done || lia).
Qed.

Lemma nodeLookupLE_stops_at_first_ge_witness :
  nodeLookupLE node_bdf (bs "e")
  = Some (if bytes_Compare (bs "f") (bs "e") =? 0 then 2 else 2 - 1).
Proof.
  apply (nodeLookupLE_stops_at_first_ge node_bdf (bs "e") (bs "f") 3 2).
  - by_compute.
  - lia.
  - intros j Hj. assert (j = 1) as -> by lia. exists (bs "d").
    split; by_compute.
  - by_compute.
  - by_compute.
Defined.

(** X22. [nodeLookupEQ] returns at the first match and reads no key behind
    it: if the keys at 1 .. i-1 differ from the search key and the key at [i]
    equals it, the result is [i], whatever lies behind [i]. *)
Theorem nodeLookupEQ_stops_at_first_match (node key : list byte) (n i : Z) :
  nkeys node = Some n → 1 ≤ i < n →
  (∀ j, 1 ≤ j < i → ∃ kj, getKey node j = Some kj ∧ kj ≠ key) →
  getKey node i = Some key →
  nodeLookupEQ node key = Some i.
Proof.
  intros Hn Hi Hpre Hk.
  rewrite (nodeLookupEQ_skip_prefix node key n i Hn ltac:(lia) Hpre).
  replace (Z.to_nat (n - i)) with (S (Z.to_nat (n - (i + 1)))) by lia.
  cbn [nodeLookupEQ_loop]. rewrite Hk. cbn [mbind option_bind].
  unfold bytes_Equal. by rewrite bool_decide_eq_true_2.
Qed.

Lemma nodeLookupEQ_stops_at_first_match_witness :
  nodeLookupEQ node_bdf (bs "f") = Some 2.
Proof.
  apply (nodeLookupEQ_stops_at_first_match node_bdf (bs "f") 3 2).
  - by_compute.
  - lia.
  - intros j Hj. assert (j = 1) as -> by lia. exists (bs "d").
    split; [by_compute|]. vm_compute. discriminate.
  - by_compute.
Defined.

(** X23. A scan that reaches an unreadable key panics: if the keys at
    1 .. i-1 do not stop the scan and [getKey] panics at [i], so do
    [nodeLookupLE] and [nodeLookupEQ]. *)
Theorem lookups_panic_at_unreadable_key (node key : list byte) (n i : Z) :
  nkeys node = Some n → 1 ≤ i < n → getKey node i = None →
  ((∀ j, 1 ≤ j < i →
      ∃ kj, getKey node j = Some kj ∧ bytes_Compare kj key < 0) →
   nodeLookupLE node key = None) ∧
  ((∀ j, 1 ≤ j < i → ∃ kj, getKey node j = Some kj ∧ kj ≠ key) →
   nodeLookupEQ node key = None).
Proof.
  intros Hn Hi Hk. split; intros Hpre.
  - rewrite (nodeLookupLE_skip_prefix node key n i Hn ltac:(lia) Hpre).
    replace (Z.to_nat (n - i)) with (S (Z.to_nat (n - (i + 1)))) by lia.
    cbn [nodeLookupLE_loop]. by rewrite Hk.
  - rewrite (nodeLookupEQ_skip_prefix node key n i Hn ltac:(lia) Hpre).
    replace (Z.to_nat (n - i)) with (S (Z.to_nat (n - (i + 1)))) by lia.
    cbn [nodeLookupEQ_loop]. by rewrite Hk.
Qed.

Lemma lookups_panic_at_unreadable_key_witness :
  ((∀ j, 1 ≤ j < 1 →
      ∃ kj, getKey node_bad j = Some kj ∧ bytes_Compare kj (bs "c") < 0) →
   nodeLookupLE node_bad (bs "c") = None) ∧
  ((∀ j, 1 ≤ j < 1 → ∃ kj, getKey node_bad j = Some kj ∧ kj ≠ bs "c") →
   nodeLookupEQ node_bad (bs "c") = None).
Proof.
  apply (lookups_panic_at_unreadable_key node_bad (bs "c") 3 1).
  - by_compute.
  - lia.
  - by_compute.
Defined.

Example lookups_on_node_bad :
  nodeLookupLE node_bad (bs "c") = None ∧ nodeLookupEQ node_bad (bs "c") = None.
Proof. vm_compute. repeat split. Qed.
